(** * RAPPOR client prototype: [client/proto/rappor.cc] and [client/proto/libc_rand.cc]

    A shallow embedding of the two encoders, the hash-width lookup and the
    libc randomness capability, followed by the properties of the encoding
    pipeline.

    Integer model.  [int] is a 32-bit two's complement integer and
    [uint64_t] a 64-bit unsigned one, both carried by [Z] with the
    wrap-around written out ([wrap_int], [to_u32], [to_u64]).  Arithmetic on
    [int] wraps; a shift whose count is not below the width of its left
    operand, a remainder by zero, a store outside the objects [output]
    points to and a [reserve] beyond [max_size] end the call; they are
    reported as a [Fault].  A local that is read before it is written
    ([ByteVector bloom;]) holds an indeterminate value, which the model
    takes as the argument [bloom0].  The [log] calls only print. *)

From Stdlib Require Import ZArith Bool List String Ascii Lia.
Import ListNotations.

Local Open Scope Z_scope.

(** ** Machine integers *)

Definition int_min : Z := - 2 ^ 31.
Definition int_max : Z := 2 ^ 31 - 1.

(** Conversion to [int]: reduction modulo 2^32 into [int_min .. int_max]. *)
Definition wrap_int (x : Z) : Z := (x + 2 ^ 31) mod 2 ^ 32 - 2 ^ 31.

(** Conversion to [unsigned int]. *)
Definition to_u32 (x : Z) : Z := x mod 2 ^ 32.

(** Conversion to [uint64_t], the type behind [ByteVector]. *)
Definition to_u64 (x : Z) : Z := x mod 2 ^ 64.

(** [~x] on a [uint64_t]. *)
Definition not_u64 (x : Z) : Z := to_u64 (Z.lnot x).

(** The [ByteVector] with every bit set. *)
Definition all_ones : Z := 2 ^ 64 - 1.

(** ** Outcomes of operations that may have no defined result *)

Inductive fault : Type :=
| ShiftCountTooLarge
| RemainderByZero
| RemainderOverflow
| StoreOutOfBounds
| LengthError.

Inductive result (A : Type) : Type :=
| Ok (a : A)
| Fault (why : fault).

Arguments Ok {A} a.
Arguments Fault {A} why.

Definition bind {A B : Type} (m : result A) (k : A -> result B) : result B :=
  match m with
  | Ok a => k a
  | Fault why => Fault why
  end.

Notation "x <- m ;; k" := (bind m (fun x => k))
  (at level 61, m at next level, right associativity).

Notation "' p <- m ;; k" := (bind m (fun x => let 'p := x in k))
  (at level 61, p pattern, m at next level, right associativity).

(** [a << n] on [int] operands: the count must be below 32; the product is
    brought back into [int]. *)
Definition shl_int (a n : Z) : result Z :=
  if (0 <=? n) && (n <? 32) then Ok (wrap_int (Z.shiftl a n))
  else Fault ShiftCountTooLarge.

(** [a >> n] on a [uint64_t] left operand: the count must be below 64. *)
Definition shr_u64 (a n : Z) : result Z :=
  if (0 <=? n) && (n <? 64) then Ok (Z.shiftr a n)
  else Fault ShiftCountTooLarge.

(** [a % b] on [int] operands: truncating remainder, the sign follows the
    dividend. *)
Definition rem_int (a b : Z) : result Z :=
  if b =? 0 then Fault RemainderByZero
  else if (a =? int_min) && (b =? -1) then Fault RemainderOverflow
  else Ok (Z.rem a b).

(** [a % b] on [uint64_t] operands. *)
Definition rem_u64 (a b : Z) : result Z :=
  if b =? 0 then Fault RemainderByZero else Ok (a mod b).

(** ** Parameters

    [Params] is declared in [rappor.h]; the code reads [num_bits()] and
    [num_hashes()], both [int]. *)
Record Params : Type := {
  num_bits : Z;
  num_hashes : Z
}.

(** ** Characters

    [value[j]] is a [char], promoted to [int] in the hash; [char] is taken
    as signed (the x86 ABIs), so bytes from 128 on are negative. *)
Definition char_to_int (c : ascii) : Z :=
  let n := Z.of_N (N_of_ascii c) in
  if n <? 128 then n else n - 256.

(** The [char] a [uint64_t] converts to in [output[i] = irr & 0xFF]. *)
Definition char_of_u64 (x : Z) : ascii := ascii_of_N (Z.to_N (x mod 256)).

Fixpoint chars (s : string) : list ascii :=
  match s with
  | EmptyString => []
  | String c s' => c :: chars s'
  end.

(** ** Randomness capabilities

    The interfaces are declared in [rappor.h]; the methods below are the
    ones [Encode] calls.  A capability is an object with state: a draw
    returns the bits and the state the object is left in. *)
Module DeterministicRandInterface.

Class t (S : Type) : Type := {
  seed : string -> S -> S;
  f_bits : S -> Z * S;
  uniform : S -> Z * S
}.

End DeterministicRandInterface.

Module RandInterface.

Class t (R : Type) : Type := {
  p_bits : R -> Z * R;
  q_bits : R -> Z * R
}.

End RandInterface.

(** ** [libc_rand.cc] *)
Module LibcRand.

Section Methods.

(** The class is declared in [libc_rand.h]; no method reads a member, so
    the object may carry any state, its configured probabilities
    included. *)
Context {T : Type}.

Definition f_bits (self : T) : Z * T := (0, self).

Definition p_bits (self : T) : Z * T := (0, self).

Definition q_bits (self : T) : Z * T := (0, self).

End Methods.

#[export] Instance rand (T : Type) : RandInterface.t T := {|
  RandInterface.p_bits := p_bits;
  RandInterface.q_bits := q_bits
|}.

(** A seedable capability whose [f_bits] is [LibcRand::f_bits]; [seed] and
    [uniform], which [libc_rand.cc] does not define, are left to the
    caller. *)
Definition det_rand (T : Type) (seed0 : string -> T -> T)
    (uniform0 : T -> Z * T) : DeterministicRandInterface.t T := {|
  DeterministicRandInterface.seed := seed0;
  DeterministicRandInterface.f_bits := f_bits;
  DeterministicRandInterface.uniform := uniform0
|}.

End LibcRand.

(** ** Memory behind [std::string* output]

    [output] points to the first of the [std::string] objects listed here
    (one, when the caller passes the address of a single string).
    [output[i] = c] is [*(output + i) = c]: it assigns the one-character
    string [c] to the [i]-th object, and is out of bounds when there is
    none. *)
Fixpoint store (out : list string) (i : nat) (s : string)
    : result (list string) :=
  match out, i with
  | [], _ => Fault StoreOutOfBounds
  | _ :: rest, O => Ok (s :: rest)
  | x :: rest, S i' => rest' <- store rest i' s ;; Ok (x :: rest')
  end.

(** [output->reserve(n)]: needs the object [*output]; changes no
    character; throws [std::length_error] when [n], converted to [size_t],
    exceeds [max_size()], which a negative [int] does. *)
Definition reserve (out : list string) (n : Z) : result (list string) :=
  match out with
  | [] => Fault StoreOutOfBounds
  | _ :: _ => if n <? 0 then Fault LengthError else Ok out
  end.

(** The loop of lines 105-111: [n] iterations left, [i] the index. *)
Fixpoint copy_irr (n i : nat) (irr : Z) (out : list string)
    : result (list string) :=
  match n with
  | O => Ok out
  | S n' =>
      out' <- store out i (String (char_of_u64 (Z.land irr 255)) EmptyString) ;;
      copy_irr n' (S i) (Z.shiftr irr 8) out'
  end.

(** ** Variant A: [Encoder] *)
Module Encoder.

Record t : Type := {
  cohort_ : Z;
  params_ : Params;
  num_bytes_ : Z;
  is_valid_ : bool
}.

(** The constructor; [det_rand] and [rand] are references to objects the
    caller owns, whose states are threaded through [Encode]. *)
Definition Encoder (metric_name : string) (cohort : Z) (params : Params) : t :=
  if Z.rem (num_bits params) 8 =? 0 then
    {| cohort_ := cohort; params_ := params;
       num_bytes_ := Z.quot (num_bits params) 8; is_valid_ := true |}
  else
    {| cohort_ := cohort; params_ := params;
       num_bytes_ := 0; is_valid_ := false |}.

Definition IsValid (e : t) : bool := is_valid_ e.

(** [h = (h << 5) + h + value[j]] *)
Definition hash_char (h : Z) (c : ascii) : Z :=
  wrap_int (wrap_int (wrap_int (Z.shiftl h 5) + h) + char_to_int c).

(** Lines 64-67: the inner loop, from [h = 5381]. *)
Definition hash_value (value : string) : Z :=
  fold_left hash_char (chars value) 5381.

(** Lines 64-71: the body of the loop over the hash index [i], which the
    body reads only to log it. *)
Definition set_hash_bit (e : t) (value : string) (i : Z) (bloom : Z)
    : result Z :=
  let h := hash_value value in
  r <- rem_int h (num_bits (params_ e)) ;;
  let bit_to_set := to_u32 r in
  one <- shl_int 1 bit_to_set ;;
  Ok (Z.lor bloom (to_u64 one)).

Fixpoint hash_loop (e : t) (value : string) (n : nat) (i : Z) (bloom : Z)
    : result Z :=
  match n with
  | O => Ok bloom
  | S n' =>
      bloom' <- set_hash_bit e value i bloom ;;
      hash_loop e value n' (i + 1) bloom'
  end.

(** Lines 58-72; [bloom0] is what the uninitialised [bloom] holds. *)
Definition hash_stage (e : t) (bloom0 : Z) (value : string) : result Z :=
  hash_loop e value (Z.to_nat (num_hashes (params_ e))) 0 (to_u64 bloom0).

(** The [ByteVector] locals of [Encode]. *)
Record Locals : Type := {
  bloom : Z;
  f_bits : Z;
  uniform : Z;
  prr : Z;
  p_bits : Z;
  q_bits : Z;
  irr : Z
}.

Section Encode.

Context {S R : Type}.
Context {det : DeterministicRandInterface.t S} {rnd : RandInterface.t R}.

(** What a call can change: the two capability objects and the strings
    at [output]. *)
Record World : Type := {
  det_rand_ : S;
  rand_ : R;
  output : list string
}.

(** Lines 58-100: hashing, PRR and IRR. *)
Definition randomize (e : t) (bloom0 : Z) (value : string) (w : World)
    : result (Locals * World) :=
  bloom <- hash_stage e bloom0 value ;;
  let d0 := DeterministicRandInterface.seed value (det_rand_ w) in
  let '(f, d1) := DeterministicRandInterface.f_bits d0 in
  let f_bits := to_u64 f in
  let '(u, d2) := DeterministicRandInterface.uniform d1 in
  let uniform := to_u64 u in
  let prr := Z.lor (Z.land f_bits uniform) (Z.land bloom (not_u64 uniform)) in
  let '(p, r1) := RandInterface.p_bits (rand_ w) in
  let p_bits := to_u64 p in
  let '(q, r2) := RandInterface.q_bits r1 in
  let q_bits := to_u64 q in
  let irr := Z.lor (Z.land p_bits (not_u64 prr)) (Z.land q_bits prr) in
  Ok ({| bloom := bloom; f_bits := f_bits; uniform := uniform; prr := prr;
         p_bits := p_bits; q_bits := q_bits; irr := irr |},
      {| det_rand_ := d2; rand_ := r2; output := output w |}).

(** Lines 57-112.  The function ends without a [return], so the model
    gives the locals and the world it leaves and no [bool]. *)
Definition Encode (e : t) (bloom0 : Z) (value : string) (w : World)
    : result (Locals * World) :=
  '(l, w1) <- randomize e bloom0 value w ;;
  out1 <- reserve (output w1) (num_bytes_ e) ;;
  out2 <- copy_irr (Z.to_nat (num_bytes_ e)) 0 (irr l) out1 ;;
  Ok (l, {| det_rand_ := det_rand_ w1; rand_ := rand_ w1; output := out2 |}).

End Encode.

End Encoder.

(** ** The hash-width lookup (lines 119-128) *)
Definition HashPartWidth (bloom_width : Z) : Z :=
  match bloom_width with
  | 8 => 3
  | 16 => 4
  | 32 => 5
  | 64 => 6
  | 128 => 7
  | _ => -1
  end.

(** ** Variant B: [Encoder2] *)

(** [Md5Digest] is declared in [rappor.h]: an array of [unsigned char],
    here the list of its elements after [md5_func_] has filled it. *)
Definition Md5Digest : Type := list Z.

(** [md5[k]], an [unsigned char] promoted to [int]. *)
Definition digest_byte (md5 : Md5Digest) (k : nat) : Z := nth k md5 0 mod 256.

Module Encoder2.

(** [hmac_func_] and [irr_rand_] are stored and never used; the state of
    the object behind [irr_rand_] is part of the [World] below. *)
Record t : Type := {
  cohort_ : Z;
  params_ : Params;
  md5_func_ : string -> Md5Digest;
  hash_part_width_ : Z;
  num_bytes_ : Z;
  is_valid_ : bool
}.

(** The constructor (lines 130-159). *)
Definition Encoder2 (metric_name : string) (cohort : Z) (params : Params)
    (md5_func : string -> Md5Digest) : t :=
  let hash_part_width := HashPartWidth (num_bits params) in
  if Z.rem (num_bits params) 8 =? 0 then
    {| cohort_ := cohort; params_ := params; md5_func_ := md5_func;
       hash_part_width_ := hash_part_width;
       num_bytes_ := Z.quot (num_bits params) 8; is_valid_ := true |}
  else
    {| cohort_ := cohort; params_ := params; md5_func_ := md5_func;
       hash_part_width_ := hash_part_width;
       num_bytes_ := 0; is_valid_ := false |}.

Definition IsValid (e : t) : bool := is_valid_ e.

(** [uint64_t hash = md5[0] | md5[1] << 8;] *)
Definition digest_hash (md5 : Md5Digest) : Z :=
  to_u64 (Z.lor (digest_byte md5 0) (Z.shiftl (digest_byte md5 1) 8)).

(** Lines 188-194: the body of the loop over the hash index [i].  It gives
    back [bloom] and [hash]; line 194, [hash >> hash_part_width_;],
    evaluates the shift and drops its value, so [hash] is the one it was
    given. *)
Definition set_hash_bit (e : t) (i : Z) (st : Z * Z) : result (Z * Z) :=
  let '(bloom, hash) := st in
  r <- rem_u64 hash (to_u64 (num_bits (params_ e))) ;;
  let bit_to_set := wrap_int r in
  one <- shl_int 1 bit_to_set ;;
  let bloom := Z.lor bloom (to_u64 one) in
  _ <- shr_u64 hash (hash_part_width_ e) ;;
  Ok (bloom, hash).

Fixpoint hash_loop (e : t) (n : nat) (i : Z) (st : Z * Z) : result (Z * Z) :=
  match n with
  | O => Ok st
  | S n' =>
      st' <- set_hash_bit e i st ;;
      hash_loop e n' (i + 1) st'
  end.

Section Encode.

Context {R : Type}.

Record World : Type := {
  irr_rand_ : R;
  output : list string
}.

(** Lines 171-237; the body ends at line 195, the rest is commented out.
    The result is the local [bloom] and the world the call leaves. *)
Definition Encode (e : t) (bloom0 : Z) (value : string) (w : World)
    : result (Z * World) :=
  let md5 := md5_func_ e value in
  let hash := digest_hash md5 in
  '(bloom, _) <- hash_loop e (Z.to_nat (num_hashes (params_ e))) 0
                   (to_u64 bloom0, hash) ;;
  Ok (bloom, w).

End Encode.

End Encoder2.

(** Byte [k] of a [ByteVector], least significant first, as the
    one-character string line 109 assigns. *)
Definition irr_byte (irr : Z) (k : nat) : string :=
  String (char_of_u64 (Z.land (Z.shiftr irr (8 * Z.of_nat k)) 255))
    EmptyString.

(** ** [libc_rand.cc]: [randbits]

    [rand()] reads and advances the generator of the C library, whose
    state is threaded here; it returns an [int] from 0 to [RAND_MAX].
    [threshold] is the local of line 25, [(int)(p1 * RAND_MAX)]: the
    [float] product is outside this model, which starts from its value. *)

(** [a << n] on a [uint64_t] left operand: the count must be below 64. *)
Definition shl_u64 (a n : Z) : result Z :=
  if (0 <=? n) && (n <? 64) then Ok (to_u64 (Z.shiftl a n))
  else Fault ShiftCountTooLarge.

Section Randbits.

Context {G : Type}.
Context (rand : G -> Z * G).

(** Lines 27-30: [n] iterations left, [i] the bit index. *)
Fixpoint randbits_loop (threshold : Z) (n : nat) (i : Z) (res : Z) (g : G)
    : result (Z * G) :=
  match n with
  | O => Ok (res, g)
  | S n' =>
      let '(r, g') := rand g in
      let bit := if r <? threshold then 1 else 0 in
      shifted <- shl_u64 bit i ;;
      randbits_loop threshold n' (i + 1) (Z.lor res shifted) g'
  end.

(** Lines 23-32, from [threshold] on. *)
Definition randbits (threshold : Z) (num_bits : Z) (g : G) : result (Z * G) :=
  randbits_loop threshold (Z.to_nat num_bits) 0 0 g.

(** The next [n] values of [rand()], and the state they leave. *)
Fixpoint rand_draws (n : nat) (g : G) : list Z * G :=
  match n with
  | O => ([], g)
  | S n' =>
      let '(r, g1) := rand g in
      let '(rs, g2) := rand_draws n' g1 in
      (r :: rs, g2)
  end.

End Randbits.

(** A generator for the examples: the linear congruential step of the
    C standard's sample [rand], with 31-bit results. *)
Module Lcg.

Definition rand (g : Z) : Z * Z :=
  let g' := (g * 1103515245 + 12345) mod 2 ^ 31 in (g', g').

End Lcg.

(** ** Capabilities for the examples

    Small implementations of the two interfaces, with draws fixed in
    advance; the state counts what was asked of the object. *)
Module Fixed.

(** State: the value last seeded with, and the draws made since. *)
Definition det_rand (f u : Z) : DeterministicRandInterface.t (string * nat) := {|
  DeterministicRandInterface.seed := fun value _ => (value, O);
  DeterministicRandInterface.f_bits := fun s => (f, (fst s, S (snd s)));
  DeterministicRandInterface.uniform := fun s => (u, (fst s, S (snd s)))
|}.

(** State: the draws made. *)
Definition rand (p q : Z) : RandInterface.t nat := {|
  RandInterface.p_bits := fun n => (p, S n);
  RandInterface.q_bits := fun n => (q, S n)
|}.

End Fixed.

(** ** Inputs of the examples *)
Module Examples.

Local Open Scope string_scope.

Definition enc8 : Encoder.t :=
  Encoder.Encoder "metric" 0 {| num_bits := 8; num_hashes := 1 |}.

Definition enc12 : Encoder.t :=
  Encoder.Encoder "metric" 0 {| num_bits := 12; num_hashes := 1 |}.

Definition enc16 : Encoder.t :=
  Encoder.Encoder "metric" 0 {| num_bits := 16; num_hashes := 1 |}.

(** Capabilities that were never used, and one empty string at [output]. *)
Definition world0 : @Encoder.World (string * nat) nat :=
  {| Encoder.det_rand_ := (EmptyString, O); Encoder.rand_ := O;
     Encoder.output := [EmptyString] |}.

(** The same with two adjacent strings at [output]. *)
Definition world2 : @Encoder.World (string * nat) nat :=
  {| Encoder.det_rand_ := (EmptyString, O); Encoder.rand_ := O;
     Encoder.output := [EmptyString; EmptyString] |}.

(** A digest function whose digest starts with the bytes 0x08, 0x00. *)
Definition md5_08 (value : string) : Md5Digest :=
  [8; 0; 0; 0; 0; 0; 0; 0; 0; 0; 0; 0; 0; 0; 0; 0].

Definition enc2_8 : Encoder2.t :=
  Encoder2.Encoder2 "metric" 0 {| num_bits := 8; num_hashes := 2 |} md5_08.

Definition enc2_24 : Encoder2.t :=
  Encoder2.Encoder2 "metric" 0 {| num_bits := 24; num_hashes := 1 |} md5_08.

Definition world2_0 : @Encoder2.World nat :=
  {| Encoder2.irr_rand_ := O; Encoder2.output := [EmptyString] |}.

End Examples.

(** ** The hash recurrence as the specification words it

    [h = h*33 + h + byte], seeded at 5381, in [int] arithmetic; to be
    compared with [Encoder.hash_value]. *)
Definition spec_hash_char (h : Z) (c : ascii) : Z :=
  wrap_int (h * 33 + h + char_to_int c).

Definition spec_hash_value (value : string) : Z :=
  fold_left spec_hash_char (chars value) 5381.

(** * Properties *)

(** ** Bits of the machine-integer operations *)

Lemma to_u64_testbit (x i : Z) :
  Z.testbit (to_u64 x) i = (i <? 64) && Z.testbit x i.
Proof. unfold to_u64. apply Z.testbit_mod_pow2. lia. Qed.

Lemma not_u64_testbit (x i : Z) :
  0 <= i -> Z.testbit (not_u64 x) i = (i <? 64) && negb (Z.testbit x i).
Proof.
  intros Hi. unfold not_u64.
  rewrite to_u64_testbit, Z.lnot_spec by assumption. reflexivity.
Qed.

Lemma all_ones_testbit (i : Z) :
  0 <= i -> Z.testbit all_ones i = (i <? 64).
Proof.
  intros Hi. change all_ones with (Z.ones 64).
  rewrite Z.testbit_ones by lia.
  destruct (Z.leb_spec 0 i); [reflexivity | lia].
Qed.

Lemma to_u64_range (x : Z) : 0 <= to_u64 x < 2 ^ 64.
Proof. unfold to_u64. apply Z.mod_pos_bound. lia. Qed.

Lemma to_u64_small (x : Z) : 0 <= x < 2 ^ 64 -> to_u64 x = x.
Proof. intros H. unfold to_u64. apply Z.mod_small. exact H. Qed.

(** Bitwise equalities on [ByteVector]s: compare bit by bit, below and
    from position 64. *)
Ltac by_bits :=
  apply Z.bits_inj'; intros i Hi;
  repeat first
    [ rewrite Z.lor_spec | rewrite Z.land_spec | rewrite to_u64_testbit
    | rewrite not_u64_testbit by assumption
    | rewrite all_ones_testbit by assumption
    | rewrite Z.testbit_0_l ];
  destruct (i <? 64);
  repeat match goal with
         | |- context [Z.testbit ?a i] => destruct (Z.testbit a i)
         end;
  reflexivity.

(** ** Variant A: the randomization stages *)

Section EncoderRandomization.

Context {S R : Type}.
Context {det : DeterministicRandInterface.t S} {rnd : RandInterface.t R}.

(** The locals [Encode] ends with are those of lines 58-100. *)
Lemma Encode_locals (e : Encoder.t) (bloom0 : Z) (value : string)
    (w : Encoder.World) (l : Encoder.Locals) (w' : Encoder.World) :
  Encoder.Encode e bloom0 value w = Ok (l, w') ->
  exists w1, Encoder.randomize e bloom0 value w = Ok (l, w1) /\
             Encoder.det_rand_ w' = Encoder.det_rand_ w1 /\
             Encoder.rand_ w' = Encoder.rand_ w1.
Proof.
  unfold Encoder.Encode. intros H.
  destruct (Encoder.randomize e bloom0 value w) as [[l1 w1]|why]; simpl in H;
    [|discriminate].
  destruct (reserve (Encoder.output w1) (Encoder.num_bytes_ e)) as [out1|why];
    simpl in H; [|discriminate].
  destruct (copy_irr _ _ _ out1) as [out2|why]; simpl in H; [|discriminate].
  injection H as <- <-. exists w1. simpl. auto.
Qed.

(** What lines 58-100 compute, once the hash stage has given [b]. *)
Lemma randomize_unfold (e : Encoder.t) (bloom0 : Z) (value : string)
    (w : Encoder.World) (b f u p q : Z) (d1 d2 : S) (r1 r2 : R) :
  Encoder.hash_stage e bloom0 value = Ok b ->
  DeterministicRandInterface.f_bits
    (DeterministicRandInterface.seed value (Encoder.det_rand_ w)) = (f, d1) ->
  DeterministicRandInterface.uniform d1 = (u, d2) ->
  RandInterface.p_bits (Encoder.rand_ w) = (p, r1) ->
  RandInterface.q_bits r1 = (q, r2) ->
  let prr :=
    Z.lor (Z.land (to_u64 f) (to_u64 u)) (Z.land b (not_u64 (to_u64 u))) in
  Encoder.randomize e bloom0 value w =
  Ok ({| Encoder.bloom := b; Encoder.f_bits := to_u64 f;
         Encoder.uniform := to_u64 u; Encoder.prr := prr;
         Encoder.p_bits := to_u64 p; Encoder.q_bits := to_u64 q;
         Encoder.irr := Z.lor (Z.land (to_u64 p) (not_u64 prr))
                              (Z.land (to_u64 q) prr) |},
      {| Encoder.det_rand_ := d2; Encoder.rand_ := r2;
         Encoder.output := Encoder.output w |}).
Proof.
  intros Hb Hf Hu Hp Hq. unfold Encoder.randomize.
  rewrite Hb. simpl. rewrite Hf, Hu, Hp, Hq. reflexivity.
Qed.

(** C1. In variant A's [Encode], once the deterministic capability has been
    reseeded with the value, its next two draws [f_bits] and [uniform] give
    [prr = (f_bits & uniform) | (bloom & ~uniform)]: at every bit position
    the PRR bit is the [f_bits] bit where the [uniform] bit is 1 and the
    [bloom] bit where it is 0. *)
Theorem Encode_prr_selects_noise_or_bloom (e : Encoder.t) (bloom0 : Z)
    (value : string) (w : Encoder.World) (b f u : Z) (d1 d2 : S) :
  Encoder.hash_stage e bloom0 value = Ok b ->
  DeterministicRandInterface.f_bits
    (DeterministicRandInterface.seed value (Encoder.det_rand_ w)) = (f, d1) ->
  DeterministicRandInterface.uniform d1 = (u, d2) ->
  exists l w1,
    Encoder.randomize e bloom0 value w = Ok (l, w1) /\
    Encoder.det_rand_ w1 = d2 /\
    Encoder.bloom l = b /\
    Encoder.f_bits l = to_u64 f /\
    Encoder.uniform l = to_u64 u /\
    Encoder.prr l =
      Z.lor (Z.land (Encoder.f_bits l) (Encoder.uniform l))
            (Z.land (Encoder.bloom l) (not_u64 (Encoder.uniform l))) /\
    (forall i, 0 <= i < 64 ->
       Z.testbit (Encoder.prr l) i =
       if Z.testbit (Encoder.uniform l) i
       then Z.testbit (Encoder.f_bits l) i
       else Z.testbit (Encoder.bloom l) i) /\
    (forall l' w', Encoder.Encode e bloom0 value w = Ok (l', w') -> l' = l).
Proof.
  intros Hb Hf Hu.
  destruct (RandInterface.p_bits (Encoder.rand_ w)) as [p r1] eqn:Hp.
  destruct (RandInterface.q_bits r1) as [q r2] eqn:Hq.
  pose proof (randomize_unfold e bloom0 value w b f u p q d1 d2 r1 r2
                Hb Hf Hu Hp Hq) as Hrun.
  cbv zeta in Hrun.
  eexists; eexists. split; [exact Hrun|]. simpl.
  repeat split.
  - intros i [Hi Hlt].
    rewrite Z.lor_spec, !Z.land_spec, not_u64_testbit by assumption.
    apply Z.ltb_lt in Hlt. rewrite Hlt.
    destruct (Z.testbit (to_u64 u) i), (Z.testbit (to_u64 f) i),
      (Z.testbit b i); reflexivity.
  - intros l' w' HE. apply Encode_locals in HE as (w1 & Hr & _).
    rewrite Hrun in Hr. injection Hr as <- _. reflexivity.
Qed.

(** C2. In variant A's [Encode], the two draws [p_bits] and [q_bits] from
    the per-report capability give [irr = (p_bits & ~prr) | (q_bits & prr)];
    with [p_bits] all zeros and [q_bits] all ones the IRR is the PRR, and
    with both all ones the IRR is all ones whatever the PRR. *)
Theorem Encode_irr_mixes_p_and_q (e : Encoder.t) (bloom0 : Z)
    (value : string) (w : Encoder.World) (b p q : Z) (r1 r2 : R) :
  Encoder.hash_stage e bloom0 value = Ok b ->
  RandInterface.p_bits (Encoder.rand_ w) = (p, r1) ->
  RandInterface.q_bits r1 = (q, r2) ->
  exists l w1,
    Encoder.randomize e bloom0 value w = Ok (l, w1) /\
    Encoder.rand_ w1 = r2 /\
    Encoder.p_bits l = to_u64 p /\
    Encoder.q_bits l = to_u64 q /\
    Encoder.irr l =
      Z.lor (Z.land (Encoder.p_bits l) (not_u64 (Encoder.prr l)))
            (Z.land (Encoder.q_bits l) (Encoder.prr l)) /\
    (Encoder.p_bits l = 0 -> Encoder.q_bits l = all_ones ->
     Encoder.irr l = Encoder.prr l) /\
    (Encoder.p_bits l = all_ones -> Encoder.q_bits l = all_ones ->
     Encoder.irr l = all_ones) /\
    (forall l' w', Encoder.Encode e bloom0 value w = Ok (l', w') -> l' = l).
Proof.
  intros Hb Hp Hq.
  destruct (DeterministicRandInterface.f_bits
              (DeterministicRandInterface.seed value (Encoder.det_rand_ w)))
    as [f d1] eqn:Hf.
  destruct (DeterministicRandInterface.uniform d1) as [u d2] eqn:Hu.
  pose proof (randomize_unfold e bloom0 value w b f u p q d1 d2 r1 r2
                Hb Hf Hu Hp Hq) as Hrun.
  cbv zeta in Hrun.
  eexists; eexists. split; [exact Hrun|]. simpl.
  repeat split.
  - intros H0 H1. rewrite H0, H1. by_bits.
  - intros H0 H1. rewrite H0, H1. by_bits.
  - intros l' w' HE. apply Encode_locals in HE as (w1 & Hr & _).
    rewrite Hrun in Hr. injection Hr as <- _. reflexivity.
Qed.

End EncoderRandomization.

Section RandomizationExamples.

Local Open Scope string_scope.

(** C1 at [value = "a"], 8 bits, [f_bits = 0xFF], [uniform = 0x0F]: the
    hash sets bit 6, and the PRR is 0x4F. *)
Lemma Encode_prr_selects_noise_or_bloom_witness :
  Encoder.hash_stage Examples.enc8 0 "a" = Ok 64 /\
  exists l w1,
    @Encoder.randomize _ _ (Fixed.det_rand 255 15) (Fixed.rand 0 0)
      Examples.enc8 0 "a" Examples.world0 = Ok (l, w1) /\
    Encoder.prr l =
      Z.lor (Z.land (Encoder.f_bits l) (Encoder.uniform l))
            (Z.land (Encoder.bloom l) (not_u64 (Encoder.uniform l))) /\
    Encoder.prr l = 79.
Proof.
  split; [reflexivity|].
  destruct (@Encode_prr_selects_noise_or_bloom _ _
              (Fixed.det_rand 255 15) (Fixed.rand 0 0)
              Examples.enc8 0 "a" Examples.world0 64 255 15 ("a", 1%nat)
              ("a", 2%nat) eq_refl eq_refl eq_refl)
    as (l & w1 & Hrun & _ & Hb & Hf & Hu & Hprr & _).
  exists l, w1. split; [exact Hrun|]. split; [exact Hprr|].
  rewrite Hprr, Hb, Hf, Hu. reflexivity.
Defined.

(** C2 at [value = "a"], 8 bits, PRR 0x4F: with [p_bits = 0] and [q_bits]
    all ones the IRR is 0x4F; with both all ones it is all ones. *)
Lemma Encode_irr_mixes_p_and_q_witness :
  Encoder.hash_stage Examples.enc8 0 "a" = Ok 64 /\
  (exists l w1,
    @Encoder.randomize _ _ (Fixed.det_rand 255 15) (Fixed.rand 0 all_ones)
      Examples.enc8 0 "a" Examples.world0 = Ok (l, w1) /\
    Encoder.prr l = 79 /\ Encoder.irr l = Encoder.prr l) /\
  (exists l w1,
    @Encoder.randomize _ _ (Fixed.det_rand 255 15)
      (Fixed.rand all_ones all_ones)
      Examples.enc8 0 "a" Examples.world0 = Ok (l, w1) /\
    Encoder.prr l = 79 /\ Encoder.irr l = all_ones).
Proof.
  split; [reflexivity|]. split.
  - destruct (@Encode_irr_mixes_p_and_q _ _
                (Fixed.det_rand 255 15) (Fixed.rand 0 all_ones)
                Examples.enc8 0 "a" Examples.world0 64 0 all_ones
                1%nat 2%nat eq_refl eq_refl eq_refl)
      as (l & w1 & Hrun & _ & Hp & Hq & _ & Hpass & _ & _).
    exists l, w1. split; [exact Hrun|]. split.
    + injection Hrun as <- _. reflexivity.
    + apply Hpass; [rewrite Hp | rewrite Hq]; reflexivity.
  - destruct (@Encode_irr_mixes_p_and_q _ _
                (Fixed.det_rand 255 15) (Fixed.rand all_ones all_ones)
                Examples.enc8 0 "a" Examples.world0 64 all_ones all_ones
                1%nat 2%nat eq_refl eq_refl eq_refl)
      as (l & w1 & Hrun & _ & Hp & Hq & _ & _ & Hones & _).
    exists l, w1. split; [exact Hrun|]. split.
    + injection Hrun as <- _. reflexivity.
    + apply Hones; [rewrite Hp | rewrite Hq]; reflexivity.
Defined.

End RandomizationExamples.

(** ** Construction and the hash-width lookup *)

(** C9. [HashPartWidth] is a total function of the width: 8, 16, 32, 64
    and 128 give 3, 4, 5, 6 and 7, which is their base-2 logarithm, and
    every other width gives the error value -1. *)
Theorem HashPartWidth_is_log2_of_supported_widths :
  HashPartWidth 8 = 3 /\ HashPartWidth 16 = 4 /\ HashPartWidth 32 = 5 /\
  HashPartWidth 64 = 6 /\ HashPartWidth 128 = 7 /\
  forall bloom_width : Z,
    HashPartWidth bloom_width =
    if existsb (Z.eqb bloom_width) [8; 16; 32; 64; 128]
    then Z.log2 bloom_width else -1.
Proof.
  repeat (split; [reflexivity|]).
  intros bw. unfold HashPartWidth.
  destruct bw as [|p|p]; try reflexivity.
  repeat (destruct p as [p|p|]; try reflexivity).
Qed.

(** C3, on the code.  A variant-B encoder built for 24 bits stores the
    error value of the lookup as its slice width and is valid all the
    same: the constructor tests only that the width is a multiple of 8. *)
Theorem Encoder2_valid_for_unsupported_width :
  HashPartWidth 24 = -1 /\
  forall (metric_name : string) (cohort num_hashes : Z)
         (md5_func : string -> Md5Digest),
    let e := Encoder2.Encoder2 metric_name cohort
               {| num_bits := 24; num_hashes := num_hashes |} md5_func in
    Encoder2.hash_part_width_ e = -1 /\ Encoder2.IsValid e = true.
Proof. split; [reflexivity|]. intros. split; reflexivity. Qed.

(** The test the constructor does make: a width that is not a whole
    number of bytes gives an invalid encoder. *)
Lemma Encoder2_invalid_when_not_whole_bytes (metric_name : string)
    (cohort : Z) (params : Params) (md5_func : string -> Md5Digest) :
  Z.rem (num_bits params) 8 <> 0 ->
  Encoder2.IsValid (Encoder2.Encoder2 metric_name cohort params md5_func)
  = false.
Proof.
  intros H. unfold Encoder2.IsValid, Encoder2.Encoder2.
  destruct (Z.eqb_spec (Z.rem (num_bits params) 8) 0); [contradiction|].
  reflexivity.
Qed.

(** ** Variant A: the hash stage *)

Lemma wrap_int_mod (x : Z) : wrap_int x mod 2 ^ 32 = x mod 2 ^ 32.
Proof.
  unfold wrap_int. rewrite Zminus_mod_idemp_l. f_equal. lia.
Qed.

Lemma wrap_int_add_l (a b : Z) : wrap_int (wrap_int a + b) = wrap_int (a + b).
Proof.
  unfold wrap_int. f_equal.
  replace ((a + 2 ^ 31) mod 2 ^ 32 - 2 ^ 31 + b + 2 ^ 31)
    with ((a + 2 ^ 31) mod 2 ^ 32 + b) by lia.
  rewrite Zplus_mod_idemp_l. f_equal. lia.
Qed.

Lemma wrap_int_small (x : Z) : - 2 ^ 31 <= x < 2 ^ 31 -> wrap_int x = x.
Proof.
  intros H. unfold wrap_int. rewrite Z.mod_small; lia.
Qed.

(** The low 32 bits survive the conversion to [int]. *)
Lemma wrap_int_testbit (x i : Z) :
  0 <= i < 32 -> Z.testbit (wrap_int x) i = Z.testbit x i.
Proof.
  intros [Hi Hlt].
  rewrite <- (Z.mod_pow2_bits_low (wrap_int x) 32 i Hlt).
  rewrite wrap_int_mod. apply Z.mod_pow2_bits_low. exact Hlt.
Qed.

(** [(h << 5) + h + c] is [h * 33 + c]. *)
Lemma hash_char_times_33 (h : Z) (c : ascii) :
  Encoder.hash_char h c = wrap_int (h * 33 + char_to_int c).
Proof.
  unfold Encoder.hash_char.
  rewrite wrap_int_add_l, <- Z.add_assoc, wrap_int_add_l.
  rewrite Z.shiftl_mul_pow2 by lia. change (2 ^ 5) with 32. f_equal. lia.
Qed.

Lemma fold_hash_char_times_33 (cs : list ascii) (h : Z) :
  fold_left Encoder.hash_char cs h =
  fold_left (fun h c => wrap_int (h * 33 + char_to_int c)) cs h.
Proof.
  revert h. induction cs as [|c cs IH]; intros h; simpl.
  - reflexivity.
  - rewrite hash_char_times_33. apply IH.
Qed.

(** One index of the loop, where the remainder is a usable shift count. *)
Lemma set_hash_bit_defined (e : Encoder.t) (value : string) (i bloom : Z) :
  0 < num_bits (Encoder.params_ e) ->
  0 <= Z.rem (Encoder.hash_value value) (num_bits (Encoder.params_ e)) < 32 ->
  Encoder.set_hash_bit e value i bloom =
  Ok (Z.lor bloom
        (to_u64 (wrap_int
           (2 ^ Z.rem (Encoder.hash_value value)
                  (num_bits (Encoder.params_ e)))))).
Proof.
  intros Hnb Hpos. unfold Encoder.set_hash_bit, rem_int.
  set (h := Encoder.hash_value value) in *.
  set (nb := num_bits (Encoder.params_ e)) in *.
  destruct (Z.eqb_spec nb 0) as [E|_]; [lia|].
  destruct (Z.eqb_spec nb (-1)) as [E|_]; [lia|].
  rewrite andb_false_r. simpl.
  unfold to_u32. rewrite (Z.mod_small (Z.rem h nb)) by lia.
  unfold shl_int.
  destruct (Z.leb_spec 0 (Z.rem h nb)); [|lia].
  destruct (Z.ltb_spec (Z.rem h nb) 32); [|lia].
  simpl. rewrite Z.shiftl_1_l. reflexivity.
Qed.

Lemma hash_bit_is_set (bloom pos : Z) :
  0 <= pos < 32 ->
  Z.testbit (Z.lor bloom (to_u64 (wrap_int (2 ^ pos)))) pos = true.
Proof.
  intros Hpos.
  rewrite Z.lor_spec, to_u64_testbit, wrap_int_testbit by exact Hpos.
  rewrite Z.pow2_bits_true by lia.
  destruct (Z.ltb_spec pos 64); [|lia].
  apply orb_true_r.
Qed.

Lemma hash_bit_alone (pos : Z) :
  0 <= pos < 31 -> to_u64 (wrap_int (2 ^ pos)) = 2 ^ pos.
Proof.
  intros Hpos.
  assert (0 < 2 ^ pos <= 2 ^ 30) as Hb.
  { split; [apply Z.pow_pos_nonneg; lia|].
    apply Z.pow_le_mono_r; lia. }
  rewrite wrap_int_small by lia. apply to_u64_small. lia.
Qed.

(** The loop sets the same mask at every index. *)
Lemma hash_loop_same_mask (e : Encoder.t) (value : string) (m : Z) :
  (forall i bloom, Encoder.set_hash_bit e value i bloom = Ok (Z.lor bloom m)) ->
  forall (n : nat) (i bloom : Z),
    Encoder.hash_loop e value n i bloom =
    Ok (match n with O => bloom | S _ => Z.lor bloom m end).
Proof.
  intros Hstep n. induction n as [|n IH]; intros i bloom; simpl.
  - reflexivity.
  - rewrite Hstep. simpl. rewrite IH.
    destruct n; [reflexivity|].
    rewrite <- Z.lor_assoc, Z.lor_diag. reflexivity.
Qed.

(** The body of the loop does not read the hash index. *)
Lemma set_hash_bit_ignores_index (e : Encoder.t) (value : string)
    (i j bloom : Z) :
  Encoder.set_hash_bit e value i bloom = Encoder.set_hash_bit e value j bloom.
Proof. reflexivity. Qed.

Section HashExamples.

Local Open Scope string_scope.


End HashExamples.


Section HashWitness.

Local Open Scope string_scope.


End HashWitness.

(** ** Variant A: refusal and serialization *)

Section EncoderOutput.

Context {S R : Type}.
Context {det : DeterministicRandInterface.t S} {rnd : RandInterface.t R}.

(** An encoder the constructor marks invalid has [num_bytes_] 0. *)
Lemma invalid_encoder_has_no_bytes (metric_name : string) (cohort : Z)
    (params : Params) :
  Encoder.IsValid (Encoder.Encoder metric_name cohort params) = false ->
  Encoder.num_bytes_ (Encoder.Encoder metric_name cohort params) = 0.
Proof.
  unfold Encoder.IsValid, Encoder.Encoder.
  destruct (Z.rem (num_bits params) 8 =? 0); simpl; [discriminate|reflexivity].
Qed.

(** C8, amended.  [Encode] does not test the validity flag.  On an encoder
    the constructor marked invalid it still hashes the value, reseeds the
    deterministic capability and makes its four draws; [num_bytes_] being 0
    it stores no byte, and the strings at [output] stay as they were. *)
Theorem invalid_encoder_draws_and_stores_nothing (metric_name : string)
    (cohort : Z) (params : Params) (bloom0 : Z) (value : string)
    (w : Encoder.World) (b : Z) :
  let e := Encoder.Encoder metric_name cohort params in
  Encoder.IsValid e = false ->
  Encoder.hash_stage e bloom0 value = Ok b ->
  Encoder.output w <> [] ->
  Encoder.num_bytes_ e = 0 /\
  exists l,
    Encoder.Encode e bloom0 value w =
    Ok (l, {| Encoder.det_rand_ :=
                snd (DeterministicRandInterface.uniform
                  (snd (DeterministicRandInterface.f_bits
                    (DeterministicRandInterface.seed value
                       (Encoder.det_rand_ w)))));
              Encoder.rand_ :=
                snd (RandInterface.q_bits
                  (snd (RandInterface.p_bits (Encoder.rand_ w))));
              Encoder.output := Encoder.output w |}) /\
    Encoder.bloom l = b.
Proof.
  intros e Hinv Hb Hout.
  pose proof (invalid_encoder_has_no_bytes _ _ _ Hinv) as Hn. fold e in Hn.
  split; [exact Hn|].
  destruct (DeterministicRandInterface.f_bits
              (DeterministicRandInterface.seed value (Encoder.det_rand_ w)))
    as [f d1] eqn:Hf.
  destruct (DeterministicRandInterface.uniform d1) as [u d2] eqn:Hu.
  destruct (RandInterface.p_bits (Encoder.rand_ w)) as [p r1] eqn:Hp.
  destruct (RandInterface.q_bits r1) as [q r2] eqn:Hq.
  pose proof (randomize_unfold e bloom0 value w b f u p q d1 d2 r1 r2
                Hb Hf Hu Hp Hq) as Hrun.
  cbv zeta in Hrun.
  unfold Encoder.Encode. rewrite Hrun, Hn. simpl.
  destruct (Encoder.output w) as [|s rest]; [contradiction|]. simpl.
  rewrite Hu, Hq. simpl.
  eexists. split; reflexivity.
Qed.

End EncoderOutput.

(** *** The copy loop *)

(** What the loop does for a width of 8 bits: one store, of the low byte
    of the IRR, into [*output]. *)
Lemma copy_irr_one_byte (irr : Z) (s : string) (rest : list string) :
  copy_irr 1 0 irr (s :: rest) =
  Ok (String (char_of_u64 (Z.land irr 255)) EmptyString :: rest).
Proof. reflexivity. Qed.

Lemma store_length (out : list string) (i : nat) (s : string)
    (out' : list string) :
  store out i s = Ok out' ->
  (i < List.length out)%nat /\ List.length out' = List.length out.
Proof.
  revert i out'. induction out as [|x rest IH]; intros i out' H; simpl in H.
  - destruct i; discriminate.
  - destruct i as [|i].
    + injection H as <-. simpl. lia.
    + destruct (store rest i s) as [rest'|why] eqn:E; simpl in H;
        [|discriminate].
      injection H as <-. apply IH in E. simpl. lia.
Qed.

Lemma store_fault (out : list string) (i : nat) (s : string) (why : fault) :
  store out i s = Fault why -> why = StoreOutOfBounds.
Proof.
  revert i. induction out as [|x rest IH]; intros i H; simpl in H.
  - destruct i; injection H as <-; reflexivity.
  - destruct i as [|i]; [discriminate|].
    destruct (store rest i s) as [rest'|why'] eqn:E; simpl in H;
      [discriminate|].
    injection H as <-. apply (IH i). exact E.
Qed.

(** A store past the first object leaves [*output] alone. *)
Lemma store_above_keeps_head (out : list string) (i : nat) (s d : string)
    (out' : list string) :
  store out (S i) s = Ok out' -> hd d out' = hd d out.
Proof.
  destruct out as [|x rest]; simpl; [discriminate|].
  destruct (store rest i s); simpl; [|discriminate].
  intros H. injection H as <-. reflexivity.
Qed.

Lemma copy_irr_above_keeps_head (n : nat) :
  forall (i : nat) (irr : Z) (out : list string) (d : string)
         (out' : list string),
    copy_irr n (S i) irr out = Ok out' -> hd d out' = hd d out.
Proof.
  induction n as [|n IH]; intros i irr out d out' H; simpl in H.
  - injection H as <-. reflexivity.
  - destruct (store out (S i) _) as [o1|why] eqn:E; simpl in H;
      [|discriminate].
    apply IH with (d := d) in H. rewrite H.
    apply store_above_keeps_head with (d := d) in E. exact E.
Qed.

(** Each byte needs a string object of its own: with fewer objects at
    [output] than bytes to write, a store falls outside them. *)
Lemma copy_irr_out_of_bounds (n : nat) :
  forall (i : nat) (irr : Z) (out : list string),
    n <> O -> (List.length out < i + n)%nat ->
    copy_irr n i irr out = Fault StoreOutOfBounds.
Proof.
  induction n as [|n IH]; intros i irr out Hn Hlen; [contradiction|].
  simpl.
  destruct (store out i _) as [o1|why] eqn:E; simpl.
  - apply store_length in E as [Hi Hl].
    apply IH; [|rewrite Hl]; lia.
  - apply store_fault in E. rewrite E. reflexivity.
Qed.

Section EncoderSerialization.

Context {S R : Type}.
Context {det : DeterministicRandInterface.t S} {rnd : RandInterface.t R}.

(** Whenever [Encode] completes with bytes to write, [*output] is the
    one-character string of the low byte of the IRR. *)
Lemma Encode_output_is_low_byte (e : Encoder.t) (bloom0 : Z)
    (value : string) (w : Encoder.World) (l : Encoder.Locals)
    (w' : Encoder.World) :
  0 < Encoder.num_bytes_ e ->
  Encoder.Encode e bloom0 value w = Ok (l, w') ->
  hd EmptyString (Encoder.output w') =
  String (char_of_u64 (Z.land (Encoder.irr l) 255)) EmptyString.
Proof.
  intros Hn. unfold Encoder.Encode.
  destruct (Encoder.randomize e bloom0 value w) as [[l1 w1]|why]; simpl;
    [|discriminate].
  destruct (reserve (Encoder.output w1) (Encoder.num_bytes_ e)) as [out1|why];
    simpl; [|discriminate].
  destruct (Z.to_nat (Encoder.num_bytes_ e)) as [|n] eqn:En; [lia|].
  simpl.
  destruct (store out1 0 _) as [o1|why] eqn:E1; simpl; [|discriminate].
  destruct (copy_irr n 1 _ o1) as [out2|why] eqn:E2; simpl; [|discriminate].
  intros H. injection H as <- <-. simpl.
  apply copy_irr_above_keeps_head with (d := EmptyString) in E2.
  rewrite E2.
  destruct out1 as [|x rest]; simpl in E1; [discriminate|].
  injection E1 as <-. reflexivity.
Qed.

(** With one string at [output], [Encode] cannot complete for a width of
    two bytes or more. *)
Lemma Encode_one_string_two_bytes (e : Encoder.t) (bloom0 : Z)
    (value : string) (w : Encoder.World) (s : string) :
  2 <= Encoder.num_bytes_ e ->
  Encoder.output w = [s] ->
  forall l w', Encoder.Encode e bloom0 value w <> Ok (l, w').
Proof.
  intros Hn Hout l w'. unfold Encoder.Encode.
  destruct (Encoder.randomize e bloom0 value w) as [[l1 w1]|why] eqn:Hr;
    simpl; [|discriminate].
  assert (Encoder.output w1 = [s]) as Hout1.
  { unfold Encoder.randomize in Hr.
    destruct (Encoder.hash_stage e bloom0 value); simpl in Hr; [|discriminate].
    destruct (DeterministicRandInterface.f_bits _) as [f d1].
    destruct (DeterministicRandInterface.uniform d1) as [u d2].
    destruct (RandInterface.p_bits _) as [p r1].
    destruct (RandInterface.q_bits r1) as [q r2].
    injection Hr as _ <-. exact Hout. }
  rewrite Hout1. unfold reserve.
  destruct (Z.ltb_spec (Encoder.num_bytes_ e) 0); [lia|]. simpl.
  rewrite copy_irr_out_of_bounds; [discriminate | lia | simpl; lia].
Qed.

End EncoderSerialization.

Section OutputExamples.

Local Open Scope string_scope.

(** C8, as stated, against the code: an encoder for 12 bits is invalid,
    and [Encode] on it hashes ["a"] (bit 10), reseeds the deterministic
    capability and draws twice from each capability. *)
Lemma invalid_encoder_still_hashes_and_draws :
  Encoder.IsValid Examples.enc12 = false /\
  Encoder.det_rand_ Examples.world0 = (EmptyString, 0%nat) /\
  Encoder.rand_ Examples.world0 = 0%nat /\
  @Encoder.Encode _ _ (Fixed.det_rand 0 0) (Fixed.rand 0 all_ones)
    Examples.enc12 0 "a" Examples.world0 =
  Ok ({| Encoder.bloom := 1024; Encoder.f_bits := 0; Encoder.uniform := 0;
         Encoder.prr := 1024; Encoder.p_bits := 0;
         Encoder.q_bits := all_ones; Encoder.irr := 1024 |},
      {| Encoder.det_rand_ := ("a", 2%nat); Encoder.rand_ := 2%nat;
         Encoder.output := [EmptyString] |}).
Proof. repeat split. Qed.

(** The amended C8 on the same encoder and value. *)
Lemma invalid_encoder_draws_and_stores_nothing_witness :
  Encoder.IsValid Examples.enc12 = false /\
  Encoder.hash_stage Examples.enc12 0 "a" = Ok 1024 /\
  Encoder.output Examples.world0 <> [] /\
  exists l,
    @Encoder.Encode _ _ (Fixed.det_rand 0 0) (Fixed.rand 0 all_ones)
      Examples.enc12 0 "a" Examples.world0 =
    Ok (l, {| Encoder.det_rand_ := ("a", 2%nat); Encoder.rand_ := 2%nat;
              Encoder.output := [EmptyString] |}) /\
    Encoder.bloom l = 1024.
Proof.
  assert (Encoder.output Examples.world0 <> []) as Hout
    by (simpl; discriminate).
  split; [reflexivity|]. split; [reflexivity|]. split; [exact Hout|].
  destruct (@invalid_encoder_draws_and_stores_nothing _ _
              (Fixed.det_rand 0 0) (Fixed.rand 0 all_ones)
              "metric" 0 {| num_bits := 12; num_hashes := 1 |} 0 "a"
              Examples.world0 1024 eq_refl eq_refl Hout)
    as (_ & l & Hrun & Hb).
  exists l. split; [exact Hrun | exact Hb].
Defined.

(** C7, on the code.  A valid encoder for 16 bits has two bytes to write.
    For ["c"] the IRR is 0x0100.  [output[0]] receives the one-character
    string of the low byte, and [output[1]], the string object after
    [*output], the next byte: with a single string at [output] the second
    store is out of bounds, and with two strings there [*output] ends as
    one character, not two. *)
Theorem Encode_16_bits_stores_one_byte_per_string :
  Encoder.IsValid Examples.enc16 = true /\
  Encoder.num_bytes_ Examples.enc16 = 2 /\
  @Encoder.Encode _ _ (Fixed.det_rand 0 0) (Fixed.rand 0 all_ones)
    Examples.enc16 0 "c" Examples.world0 = Fault StoreOutOfBounds /\
  exists l w',
    @Encoder.Encode _ _ (Fixed.det_rand 0 0) (Fixed.rand 0 all_ones)
      Examples.enc16 0 "c" Examples.world2 = Ok (l, w') /\
    Encoder.irr l = 256 /\
    Encoder.output w' =
      [String (char_of_u64 0) EmptyString; String (char_of_u64 1) EmptyString] /\
    String.length (hd EmptyString (Encoder.output w')) = 1%nat.
Proof.
  split; [reflexivity|]. split; [reflexivity|]. split; [reflexivity|].
  eexists; eexists. split; [reflexivity|]. repeat split.
Qed.

End OutputExamples.


(** ** Variant B *)

(** The loop never changes [hash]. *)
Lemma Encoder2_hash_loop_keeps_hash (e : Encoder2.t) (n : nat) :
  forall (i bloom hash : Z) (st : Z * Z),
    Encoder2.hash_loop e n i (bloom, hash) = Ok st -> snd st = hash.
Proof.
  induction n as [|n IH]; intros i bloom hash st H; simpl in H.
  - injection H as <-. reflexivity.
  - unfold Encoder2.set_hash_bit in H.
    destruct (rem_u64 hash _) as [r|]; simpl in H; [|discriminate].
    destruct (shl_int 1 (wrap_int r)) as [one|]; simpl in H; [|discriminate].
    destruct (shr_u64 hash _) as [x|]; simpl in H; [|discriminate].
    apply IH in H. exact H.
Qed.

Section Encoder2Examples.

Local Open Scope string_scope.

(** C5, on the code.  With 8 bits, two hashes and a digest starting 0x08
    0x00, [hash] is 8 and the slice width 3.  Index 0 sets bit
    [8 mod 8 = 0]; index 1 should set bit [(8 >> 3) mod 8 = 1], but the
    shift of line 194 is not assigned, so it sets bit 0 again: the bitset
    ends as 1, with bit 1 clear. *)
Theorem Encoder2_second_index_reuses_first_slice :
  Encoder2.IsValid Examples.enc2_8 = true /\
  Encoder2.hash_part_width_ Examples.enc2_8 = 3 /\
  Encoder2.digest_hash (Examples.md5_08 "x") = 8 /\
  Z.shiftr 8 (1 * 3) mod 8 = 1 /\
  Encoder2.hash_loop Examples.enc2_8 2 0 (0, 8) = Ok (1, 8) /\
  Encoder2.Encode Examples.enc2_8 0 "x" Examples.world2_0 =
    Ok (1, Examples.world2_0) /\
  Z.testbit 1 1 = false.
Proof. repeat split. Qed.

(** C6, on the code.  Variant B's [Encode] ends after the hash loop: it
    leaves the capability and the strings at [output] as they were, for
    every encoder and value; for ["x"] it computes the bitset 1 and the
    string at [output] stays empty. *)
Theorem Encoder2_Encode_writes_no_report :
  (forall (R : Type) (e : Encoder2.t) (bloom0 : Z) (value : string)
          (w : @Encoder2.World R),
     match Encoder2.Encode e bloom0 value w with
     | Ok (_, w') => w' = w
     | Fault _ => True
     end) /\
  Encoder2.Encode Examples.enc2_8 0 "x" Examples.world2_0 =
    Ok (1, Examples.world2_0) /\
  Encoder2.output Examples.world2_0 = [EmptyString].
Proof.
  split; [|split; reflexivity].
  intros R e bloom0 value w. unfold Encoder2.Encode.
  destruct (Encoder2.hash_loop _ _ _ _) as [[bloom hash]|why]; simpl;
    [reflexivity | exact I].
Qed.

End Encoder2Examples.

(** ** The libc capability *)

(** C10.  [LibcRand]'s [f_bits], [p_bits] and [q_bits] return 0 whatever
    the object holds; a variant-A encoder that draws its [f_bits], [p_bits]
    and [q_bits] from it computes an IRR of 0 for every value it can
    hash. *)
Theorem LibcRand_zero_bits_give_zero_irr :
  (forall (T : Type) (self : T),
     LibcRand.f_bits self = (0, self) /\
     LibcRand.p_bits self = (0, self) /\
     LibcRand.q_bits self = (0, self)) /\
  forall (S T : Type) (seed0 : string -> S -> S) (uniform0 : S -> Z * S)
         (e : Encoder.t) (bloom0 : Z) (value : string)
         (w : @Encoder.World S T) (b : Z),
    Encoder.hash_stage e bloom0 value = Ok b ->
    exists l w1,
      @Encoder.randomize S T (LibcRand.det_rand S seed0 uniform0)
        (LibcRand.rand T) e bloom0 value w = Ok (l, w1) /\
      Encoder.f_bits l = 0 /\ Encoder.p_bits l = 0 /\ Encoder.q_bits l = 0 /\
      Encoder.irr l = 0 /\
      forall l' w',
        @Encoder.Encode S T (LibcRand.det_rand S seed0 uniform0)
          (LibcRand.rand T) e bloom0 value w = Ok (l', w') ->
        Encoder.irr l' = 0.
Proof.
  split; [intros; repeat split|].
  intros S T seed0 uniform0 e bloom0 value w b Hb.
  destruct (uniform0 (seed0 value (Encoder.det_rand_ w))) as [u d2] eqn:Hu.
  pose proof (@randomize_unfold S T (LibcRand.det_rand S seed0 uniform0)
                (LibcRand.rand T) e bloom0 value w b 0 u 0 0
                (seed0 value (Encoder.det_rand_ w)) d2
                (Encoder.rand_ w) (Encoder.rand_ w)
                Hb eq_refl Hu eq_refl eq_refl) as Hrun.
  cbv zeta in Hrun.
  eexists; eexists. split; [exact Hrun|]. simpl.
  repeat split.
  intros l' w' HE. apply Encode_locals in HE as (w1 & Hr & _).
  rewrite Hrun in Hr. injection Hr as <- _. reflexivity.
Qed.

Section LibcRandExamples.

Local Open Scope string_scope.

(** C10 at ["a"] and 8 bits, with a [uniform] of 0x0F: the bitset is 0x40,
    the PRR 0x40, the IRR 0. *)
Lemma LibcRand_zero_bits_give_zero_irr_witness :
  Encoder.hash_stage Examples.enc8 0 "a" = Ok 64 /\
  exists l w1,
    @Encoder.randomize (string * nat) nat
      (LibcRand.det_rand _ (fun value _ => (value, O))
         (fun s => (15, (fst s, Datatypes.S (snd s)))))
      (LibcRand.rand nat) Examples.enc8 0 "a" Examples.world0 = Ok (l, w1) /\
    Encoder.prr l = 64 /\ Encoder.irr l = 0.
Proof.
  split; [reflexivity|].
  destruct LibcRand_zero_bits_give_zero_irr as [_ H].
  destruct (H (string * nat)%type nat (fun value _ => (value, O))
              (fun s => (15, (fst s, Datatypes.S (snd s))))
              Examples.enc8 0 "a" Examples.world0 64 eq_refl)
    as (l & w1 & Hrun & _ & _ & _ & Hirr & _).
  exists l, w1. split; [exact Hrun|]. split; [|exact Hirr].
  injection Hrun as <- _. reflexivity.
Defined.

End LibcRandExamples.

(** * Further properties of the code *)

(** ** [ByteVector] values stay within 64 bits *)

Lemma u64_fixed (x : Z) : to_u64 x = x -> 0 <= x < 2 ^ 64.
Proof. intros <-. apply to_u64_range. Qed.

Lemma lor_u64 (a b : Z) :
  0 <= a < 2 ^ 64 -> 0 <= b < 2 ^ 64 -> 0 <= Z.lor a b < 2 ^ 64.
Proof.
  intros Ha Hb. rewrite <- (to_u64_small a Ha), <- (to_u64_small b Hb).
  apply u64_fixed. by_bits.
Qed.

Lemma land_u64_l (a b : Z) : 0 <= a < 2 ^ 64 -> 0 <= Z.land a b < 2 ^ 64.
Proof.
  intros Ha. rewrite <- (to_u64_small a Ha). apply u64_fixed. by_bits.
Qed.

Lemma wrap_int_range (x : Z) : int_min <= wrap_int x <= int_max.
Proof.
  unfold wrap_int, int_min, int_max.
  pose proof (Z.mod_pos_bound (x + 2 ^ 31) (2 ^ 32) ltac:(lia)). lia.
Qed.

(** ** Variant A: the hash stage in closed form *)

(** The hash is an [int]. *)
Lemma hash_value_range (value : string) :
  int_min <= Encoder.hash_value value <= int_max.
Proof.
  unfold Encoder.hash_value.
  assert (forall cs h, int_min <= h <= int_max ->
            int_min <= fold_left Encoder.hash_char cs h <= int_max) as H.
  { induction cs as [|c cs IH]; intros h Hh; simpl; [exact Hh|].
    apply IH. unfold Encoder.hash_char. apply wrap_int_range. }
  apply H. unfold int_min, int_max. lia.
Qed.

(** A remainder of the hash that is no shift count stays none as an
    [unsigned int]. *)
Lemma bad_remainder_is_bad_count (h nb : Z) :
  int_min <= h <= int_max -> nb <> 0 ->
  (0 <=? Z.rem h nb) && (Z.rem h nb <? 32) = false ->
  (0 <=? to_u32 (Z.rem h nb)) && (to_u32 (Z.rem h nb) <? 32) = false.
Proof.
  unfold int_min, int_max, to_u32. intros Hh Hnb Hbad.
  assert (- 2 ^ 31 <= Z.rem h nb <= 2 ^ 31) as Hr.
  { pose proof (Z.rem_bound_abs h nb Hnb).
    pose proof (Z.rem_sign_mul h nb Hnb).
    destruct (Z.le_gt_cases 0 h).
    - pose proof (Z.rem_nonneg h nb Hnb ltac:(lia)).
      assert (Z.rem h nb <= h); [|lia].
      destruct (Z.le_gt_cases (Z.abs nb) h).
      + lia.
      + rewrite (proj2 (Z.rem_small_iff h nb Hnb)); lia.
    - pose proof (Z.rem_nonpos h nb Hnb ltac:(lia)).
      assert (h <= Z.rem h nb); [|lia].
      destruct (Z.le_gt_cases (Z.abs nb) (- h)).
      + lia.
      + rewrite (proj2 (Z.rem_small_iff h nb Hnb)); lia. }
  apply andb_false_iff in Hbad.
  apply andb_false_iff. right. apply Z.ltb_ge.
  destruct Hbad as [Hneg|Hbig].
  - apply Z.leb_gt in Hneg.
    replace (Z.rem h nb mod 2 ^ 32) with (Z.rem h nb + 2 ^ 32); [lia|].
    apply Z.mod_unique with (q := -1); lia.
  - apply Z.ltb_ge in Hbig. rewrite Z.mod_small; lia.
Qed.

(** One index in closed form: the outcome depends on the value and on
    [num_bits] alone, and an index that completes adds one mask. *)
Lemma set_hash_bit_closed_form (e : Encoder.t) (value : string)
    (i bloom : Z) :
  let h := Encoder.hash_value value in
  let nb := num_bits (Encoder.params_ e) in
  Encoder.set_hash_bit e value i bloom =
  if nb =? 0 then Fault RemainderByZero
  else if (h =? int_min) && (nb =? -1) then Fault RemainderOverflow
  else if (0 <=? Z.rem h nb) && (Z.rem h nb <? 32)
       then Ok (Z.lor bloom (to_u64 (wrap_int (2 ^ Z.rem h nb))))
       else Fault ShiftCountTooLarge.
Proof.
  intros h nb. unfold Encoder.set_hash_bit, rem_int. fold h. fold nb.
  destruct (Z.eqb_spec nb 0) as [E0|E0]; [reflexivity|].
  destruct ((h =? int_min) && (nb =? -1)); [reflexivity|]. simpl.
  destruct ((0 <=? Z.rem h nb) && (Z.rem h nb <? 32)) eqn:Hc.
  - apply andb_true_iff in Hc as [H0 H32].
    apply Z.leb_le in H0. apply Z.ltb_lt in H32.
    unfold to_u32. rewrite (Z.mod_small (Z.rem h nb)) by lia.
    unfold shl_int.
    destruct (Z.leb_spec 0 (Z.rem h nb)); [|lia].
    destruct (Z.ltb_spec (Z.rem h nb) 32); [|lia].
    simpl. rewrite Z.shiftl_1_l. reflexivity.
  - unfold shl_int.
    rewrite (bad_remainder_is_bad_count h nb (hash_value_range value) E0 Hc).
    reflexivity.
Qed.

Lemma hash_stage_outcome (e : Encoder.t) (bloom0 : Z) (value : string) :
  0 < num_hashes (Encoder.params_ e) ->
  let h := Encoder.hash_value value in
  let nb := num_bits (Encoder.params_ e) in
  Encoder.hash_stage e bloom0 value =
  if nb =? 0 then Fault RemainderByZero
  else if (h =? int_min) && (nb =? -1) then Fault RemainderOverflow
  else if (0 <=? Z.rem h nb) && (Z.rem h nb <? 32)
       then Ok (Z.lor (to_u64 bloom0) (to_u64 (wrap_int (2 ^ Z.rem h nb))))
       else Fault ShiftCountTooLarge.
Proof.
  intros Hn h nb. unfold Encoder.hash_stage.
  destruct (Z.to_nat (num_hashes (Encoder.params_ e))) as [|n] eqn:En; [lia|].
  pose proof (set_hash_bit_closed_form e value) as Hstep.
  cbv zeta in Hstep. fold h in Hstep. fold nb in Hstep.
  destruct (nb =? 0); [simpl; rewrite Hstep; reflexivity|].
  destruct ((h =? int_min) && (nb =? -1));
    [simpl; rewrite Hstep; reflexivity|].
  destruct ((0 <=? Z.rem h nb) && (Z.rem h nb <? 32));
    [|simpl; rewrite Hstep; reflexivity].
  rewrite (hash_loop_same_mask e value _ Hstep). reflexivity.
Qed.

(** With at least one hash index the stage either stops at the first
    index, on a remainder by zero or a shift count the [int] 1 does not
    admit, or gives the initial bitset with the one mask of the value. *)
Theorem hash_stage_closed_form (e : Encoder.t) (bloom0 : Z) (value : string) :
  0 < num_hashes (Encoder.params_ e) ->
  let h := Encoder.hash_value value in
  let nb := num_bits (Encoder.params_ e) in
  Encoder.hash_stage e bloom0 value =
  if nb =? 0 then Fault RemainderByZero
  else if (h =? int_min) && (nb =? -1) then Fault RemainderOverflow
  else if (0 <=? Z.rem h nb) && (Z.rem h nb <? 32)
       then Ok (Z.lor (to_u64 bloom0) (to_u64 (wrap_int (2 ^ Z.rem h nb))))
       else Fault ShiftCountTooLarge.
Proof. exact (hash_stage_outcome e bloom0 value). Qed.

(** The number of hashes, once positive, does not change the bitset:
    every index sets the bit of the first. *)
Theorem hash_stage_ignores_num_hashes (e1 e2 : Encoder.t) (bloom0 : Z)
    (value : string) :
  num_bits (Encoder.params_ e1) = num_bits (Encoder.params_ e2) ->
  0 < num_hashes (Encoder.params_ e1) ->
  0 < num_hashes (Encoder.params_ e2) ->
  Encoder.hash_stage e1 bloom0 value = Encoder.hash_stage e2 bloom0 value.
Proof.
  intros Hnb H1 H2.
  rewrite (hash_stage_outcome e1 bloom0 value H1).
  rewrite (hash_stage_outcome e2 bloom0 value H2).
  cbv zeta. rewrite Hnb. reflexivity.
Qed.

Lemma hash_stage_monotone (e : Encoder.t) (bloom0 : Z) (value : string)
    (b : Z) :
  Encoder.hash_stage e bloom0 value = Ok b ->
  0 <= b < 2 ^ 64 /\
  forall i, Z.testbit (to_u64 bloom0) i = true -> Z.testbit b i = true.
Proof.
  unfold Encoder.hash_stage.
  assert (forall n i bloom b',
            0 <= bloom < 2 ^ 64 ->
            Encoder.hash_loop e value n i bloom = Ok b' ->
            0 <= b' < 2 ^ 64 /\
            forall j, Z.testbit bloom j = true -> Z.testbit b' j = true) as H.
  { induction n as [|n IH]; intros i bloom b' Hr Hrun; simpl in Hrun.
    - injection Hrun as <-. auto.
    - destruct (Encoder.set_hash_bit e value i bloom) as [b1|why] eqn:E;
        simpl in Hrun; [|discriminate].
      unfold Encoder.set_hash_bit in E.
      destruct (rem_int _ _) as [r|]; simpl in E; [|discriminate].
      destruct (shl_int 1 (to_u32 r)) as [one|]; simpl in E; [|discriminate].
      injection E as <-.
      apply IH in Hrun as [Hr' Hbits].
      + split; [exact Hr'|]. intros j Hj. apply Hbits.
        rewrite Z.lor_spec, Hj. reflexivity.
      + apply lor_u64; [exact Hr | apply to_u64_range]. }
  intros Hrun. apply H in Hrun; [exact Hrun | apply to_u64_range].
Qed.

(** The stage only adds bits: what the bitset held before is still set,
    and the result is a 64-bit value. *)
Theorem hash_stage_keeps_bits (e : Encoder.t) (bloom0 : Z) (value : string)
    (b : Z) :
  Encoder.hash_stage e bloom0 value = Ok b ->
  0 <= b < 2 ^ 64 /\
  forall i, Z.testbit (to_u64 bloom0) i = true -> Z.testbit b i = true.
Proof. exact (hash_stage_monotone e bloom0 value b). Qed.

(** ** Variant A: what the two randomization stages keep *)

Section RandomizeProperties.

Context {S R : Type}.
Context {det : DeterministicRandInterface.t S} {rnd : RandInterface.t R}.

(** Lines 58-100, read backwards: a completed run names its bitset and
    its four draws. *)
Lemma randomize_inv (e : Encoder.t) (bloom0 : Z) (value : string)
    (w : Encoder.World) (l : Encoder.Locals) (w1 : Encoder.World) :
  Encoder.randomize e bloom0 value w = Ok (l, w1) ->
  exists b f u p q,
    Encoder.hash_stage e bloom0 value = Ok b /\
    f = to_u64 (fst (DeterministicRandInterface.f_bits
          (DeterministicRandInterface.seed value (Encoder.det_rand_ w)))) /\
    l = {| Encoder.bloom := b; Encoder.f_bits := f; Encoder.uniform := to_u64 u;
           Encoder.prr :=
             Z.lor (Z.land f (to_u64 u)) (Z.land b (not_u64 (to_u64 u)));
           Encoder.p_bits := to_u64 p; Encoder.q_bits := to_u64 q;
           Encoder.irr :=
             Z.lor (Z.land (to_u64 p)
                      (not_u64 (Z.lor (Z.land f (to_u64 u))
                                  (Z.land b (not_u64 (to_u64 u))))))
                   (Z.land (to_u64 q)
                      (Z.lor (Z.land f (to_u64 u))
                         (Z.land b (not_u64 (to_u64 u))))) |} /\
    Encoder.output w1 = Encoder.output w.
Proof.
  unfold Encoder.randomize. intros H.
  destruct (Encoder.hash_stage e bloom0 value) as [b|why]; simpl in H;
    [|discriminate].
  destruct (DeterministicRandInterface.f_bits _) as [f d1].
  destruct (DeterministicRandInterface.uniform d1) as [u d2].
  destruct (RandInterface.p_bits _) as [p r1].
  destruct (RandInterface.q_bits r1) as [q r2].
  injection H as <- <-.
  exists b, (to_u64 f), u, p, q. simpl. auto.
Qed.

(** A capability whose [seed] overwrites its state makes the PRR a function
    of the value: whatever the capability was used for before, encoding
    the same value over the same initial bitset draws the same [f_bits]
    and [uniform] and computes the same PRR. *)
Theorem prr_is_memoized (e : Encoder.t) (bloom0 : Z) (value : string)
    (w w' : Encoder.World) (l l' : Encoder.Locals) (w1 w1' : Encoder.World) :
  (forall v d d',
     DeterministicRandInterface.seed v d = DeterministicRandInterface.seed v d') ->
  Encoder.randomize e bloom0 value w = Ok (l, w1) ->
  Encoder.randomize e bloom0 value w' = Ok (l', w1') ->
  Encoder.f_bits l = Encoder.f_bits l' /\
  Encoder.uniform l = Encoder.uniform l' /\
  Encoder.prr l = Encoder.prr l' /\
  Encoder.det_rand_ w1 = Encoder.det_rand_ w1'.
Proof.
  intros Hseed. unfold Encoder.randomize.
  rewrite (Hseed value (Encoder.det_rand_ w) (Encoder.det_rand_ w')).
  destruct (Encoder.hash_stage e bloom0 value) as [b|why]; simpl;
    [|discriminate].
  destruct (DeterministicRandInterface.f_bits _) as [f d1].
  destruct (DeterministicRandInterface.uniform d1) as [u d2].
  destruct (RandInterface.p_bits (Encoder.rand_ w)) as [p r1].
  destruct (RandInterface.q_bits r1) as [q r2].
  destruct (RandInterface.p_bits (Encoder.rand_ w')) as [p' r1'].
  destruct (RandInterface.q_bits r1') as [q' r2'].
  intros H H'. injection H as <- <-. injection H' as <- <-.
  simpl. auto.
Qed.

(** Every [ByteVector] local of a completed run is a 64-bit value,
    whatever the capabilities return and whatever [bloom] held at first. *)
Theorem randomize_locals_are_64_bit (e : Encoder.t) (bloom0 : Z)
    (value : string) (w : Encoder.World) (l : Encoder.Locals)
    (w1 : Encoder.World) :
  Encoder.randomize e bloom0 value w = Ok (l, w1) ->
  Forall (fun x => 0 <= x < 2 ^ 64)
    [Encoder.bloom l; Encoder.f_bits l; Encoder.uniform l; Encoder.prr l;
     Encoder.p_bits l; Encoder.q_bits l; Encoder.irr l].
Proof.
  intros H. apply randomize_inv in H as (b & f & u & p & q & Hb & -> & -> & _).
  apply hash_stage_monotone in Hb as [Hb _]. simpl.
  assert (0 <= Z.lor (Z.land (to_u64 (fst (DeterministicRandInterface.f_bits
            (DeterministicRandInterface.seed value (Encoder.det_rand_ w)))))
            (to_u64 u)) (Z.land b (not_u64 (to_u64 u))) < 2 ^ 64) as Hprr.
  { apply lor_u64; apply land_u64_l; [apply to_u64_range | exact Hb]. }
  repeat apply Forall_cons; try apply Forall_nil;
    try apply to_u64_range; try exact Hb; try exact Hprr.
  apply lor_u64; apply land_u64_l; apply to_u64_range.
Qed.

(** The IRR bit by bit: where the PRR has a 1 the report bit is the
    [q_bits] bit, where it has a 0 the [p_bits] bit. *)
Theorem irr_selects_q_or_p (e : Encoder.t) (bloom0 : Z) (value : string)
    (w : Encoder.World) (l : Encoder.Locals) (w1 : Encoder.World) (i : Z) :
  Encoder.randomize e bloom0 value w = Ok (l, w1) ->
  0 <= i < 64 ->
  Z.testbit (Encoder.irr l) i =
  if Z.testbit (Encoder.prr l) i
  then Z.testbit (Encoder.q_bits l) i
  else Z.testbit (Encoder.p_bits l) i.
Proof.
  intros H [Hi Hlt].
  apply randomize_inv in H as (b & f & u & p & q & _ & _ & -> & _). simpl.
  set (prr := Z.lor (Z.land f (to_u64 u)) (Z.land b (not_u64 (to_u64 u)))).
  rewrite Z.lor_spec, !Z.land_spec, not_u64_testbit by assumption.
  apply Z.ltb_lt in Hlt. rewrite Hlt.
  destruct (Z.testbit prr i), (Z.testbit (to_u64 p) i),
    (Z.testbit (to_u64 q) i); reflexivity.
Qed.

(** Without noise the report is the bitset: a [uniform] of 0 makes the PRR
    the bitset the hash stage left, and [p_bits] 0 with [q_bits] all ones
    then makes the IRR that bitset too. *)
Theorem no_noise_reports_the_bitset (e : Encoder.t) (bloom0 : Z)
    (value : string) (w : Encoder.World) (l : Encoder.Locals)
    (w1 : Encoder.World) :
  Encoder.randomize e bloom0 value w = Ok (l, w1) ->
  Encoder.uniform l = 0 ->
  Encoder.prr l = Encoder.bloom l /\
  (Encoder.p_bits l = 0 -> Encoder.q_bits l = all_ones ->
   Encoder.irr l = Encoder.bloom l).
Proof.
  intros H.
  apply randomize_inv in H as (b & f & u & p & q & Hb & _ & -> & _). simpl.
  apply hash_stage_monotone in Hb as [Hb _].
  intros Hu. rewrite Hu.
  assert (Z.lor (Z.land f 0) (Z.land b (not_u64 0)) = b) as Hprr.
  { rewrite <- (to_u64_small b Hb). by_bits. }
  rewrite Hprr. split; [reflexivity|].
  intros Hp Hq. rewrite Hp, Hq, <- (to_u64_small b Hb). by_bits.
Qed.

(** With a [uniform] of all ones the PRR is [f_bits]: no bit of the
    bitset, and so nothing of the value's hash, reaches the report. *)
Theorem full_noise_hides_the_bitset (e : Encoder.t) (bloom0 : Z)
    (value : string) (w : Encoder.World) (l : Encoder.Locals)
    (w1 : Encoder.World) :
  Encoder.randomize e bloom0 value w = Ok (l, w1) ->
  Encoder.uniform l = all_ones ->
  Encoder.prr l = Encoder.f_bits l.
Proof.
  intros H.
  apply randomize_inv in H as (b & f & u & p & q & _ & Hf & -> & _). simpl.
  intros Hu. rewrite Hu, Hf. by_bits.
Qed.

End RandomizeProperties.

(** ** Variant A: construction *)

(** The constructor accepts exactly the widths that are whole bytes, then
    with [num_bytes_] an eighth of the width; a rejected encoder has
    [num_bytes_] 0 and keeps its parameters all the same. *)
Theorem Encoder_valid_iff_whole_bytes (metric_name : string) (cohort : Z)
    (params : Params) :
  let e := Encoder.Encoder metric_name cohort params in
  (Encoder.IsValid e = true <-> Z.rem (num_bits params) 8 = 0) /\
  (Encoder.IsValid e = true -> 8 * Encoder.num_bytes_ e = num_bits params) /\
  (Encoder.IsValid e = false -> Encoder.num_bytes_ e = 0) /\
  Encoder.params_ e = params /\ Encoder.cohort_ e = cohort.
Proof.
  unfold Encoder.IsValid, Encoder.Encoder.
  destruct (Z.eqb_spec (Z.rem (num_bits params) 8) 0) as [E|E];
    cbn [Encoder.is_valid_ Encoder.num_bytes_ Encoder.params_
         Encoder.cohort_].
  - split; [split; auto|]. split; [|split; [discriminate|split; reflexivity]].
    intros _. pose proof (Z.quot_rem' (num_bits params) 8) as Hq.
    rewrite E in Hq. lia.
  - split; [split; [discriminate | contradiction]|].
    split; [discriminate|]. split; [reflexivity|]. split; reflexivity.
Qed.

Section EncodeIgnoresCohort.

Context {S R : Type}.
Context {det : DeterministicRandInterface.t S} {rnd : RandInterface.t R}.

Lemma hash_loop_reads_params (e1 e2 : Encoder.t) (value : string) (n : nat) :
  Encoder.params_ e1 = Encoder.params_ e2 ->
  forall i bloom,
    Encoder.hash_loop e1 value n i bloom = Encoder.hash_loop e2 value n i bloom.
Proof.
  intros Hp. induction n as [|n IH]; intros i bloom; simpl; [reflexivity|].
  unfold Encoder.set_hash_bit. rewrite Hp.
  destruct (rem_int _ _) as [r|]; simpl; [|reflexivity].
  destruct (shl_int 1 (to_u32 r)) as [one|]; simpl; [|reflexivity].
  apply IH.
Qed.

Lemma Encode_reads_params_and_num_bytes (e1 e2 : Encoder.t) (bloom0 : Z)
    (value : string) (w : Encoder.World) :
  Encoder.params_ e1 = Encoder.params_ e2 ->
  Encoder.num_bytes_ e1 = Encoder.num_bytes_ e2 ->
  Encoder.Encode e1 bloom0 value w = Encoder.Encode e2 bloom0 value w.
Proof.
  intros Hp Hn.
  unfold Encoder.Encode, Encoder.randomize, Encoder.hash_stage.
  rewrite (hash_loop_reads_params e1 e2 value _ Hp), Hp, Hn. reflexivity.
Qed.

(** [Encode] reads neither the metric name nor the cohort: two encoders
    built from the same parameters encode alike. *)
Theorem Encode_ignores_metric_and_cohort (m1 m2 : string) (c1 c2 : Z)
    (params : Params) (bloom0 : Z) (value : string) (w : Encoder.World) :
  Encoder.Encode (Encoder.Encoder m1 c1 params) bloom0 value w =
  Encoder.Encode (Encoder.Encoder m2 c2 params) bloom0 value w.
Proof.
  apply Encode_reads_params_and_num_bytes;
    unfold Encoder.Encoder;
    destruct (Z.rem (num_bits params) 8 =? 0); reflexivity.
Qed.

End EncodeIgnoresCohort.

(** ** Variant A: the copy loop, string by string *)

Lemma store_nth (out : list string) (i : nat) (s : string) :
  (i < List.length out)%nat ->
  exists out',
    store out i s = Ok out' /\
    forall k d, nth k out' d = if Nat.eqb k i then s else nth k out d.
Proof.
  revert i. induction out as [|x rest IH]; intros i Hi; simpl in Hi; [lia|].
  destruct i as [|i]; simpl.
  - eexists. split; [reflexivity|]. intros [|k] d; reflexivity.
  - destruct (IH i ltac:(lia)) as (rest' & Hs & Hn). rewrite Hs. simpl.
    eexists. split; [reflexivity|]. intros [|k] d; simpl; [reflexivity|].
    apply Hn.
Qed.

Lemma copy_irr_nth (n : nat) :
  forall (i : nat) (irr : Z) (out : list string),
    (i + n <= List.length out)%nat ->
    exists out',
      copy_irr n i irr out = Ok out' /\
      List.length out' = List.length out /\
      forall k d,
        nth k out' d =
        if Nat.leb i k && Nat.ltb k (i + n) then irr_byte irr (k - i)
        else nth k out d.
Proof.
  induction n as [|n IH]; intros i irr out Hlen; simpl.
  - exists out. repeat split. intros k d.
    destruct (Nat.leb_spec i k), (Nat.ltb_spec k (i + 0)); simpl;
      try reflexivity; lia.
  - destruct (store_nth out i
                (String (char_of_u64 (Z.land irr 255)) EmptyString)
                ltac:(lia)) as (o1 & Hs & Hn1).
    rewrite Hs. simpl.
    pose proof (store_length _ _ _ _ Hs) as [_ Hl1].
    destruct (IH (Datatypes.S i) (Z.shiftr irr 8) o1 ltac:(lia))
      as (out' & Hc & Hl & Hn).
    exists out'. split; [exact Hc|]. split; [lia|].
    intros k d. rewrite Hn, Hn1.
    destruct (Nat.leb_spec (Datatypes.S i) k), (Nat.leb_spec i k),
      (Nat.ltb_spec k (Datatypes.S i + n)),
      (Nat.ltb_spec k (i + Datatypes.S n)), (Nat.eqb_spec k i);
      simpl; try lia; try reflexivity.
    + unfold irr_byte. rewrite Z.shiftr_shiftr by lia.
      do 4 f_equal. lia.
    + subst k. unfold irr_byte. rewrite Nat.sub_diag. reflexivity.
Qed.

Section EncodeSerialization.

Context {S R : Type}.
Context {det : DeterministicRandInterface.t S} {rnd : RandInterface.t R}.

(** With at least [num_bytes_] string objects at [output] (and one in any
    case), a run whose hash stage completes completes: byte [k] of the IRR,
    least significant first, becomes the whole of the [k]-th string, and
    the strings after those are left alone. *)
Theorem Encode_stores_one_byte_per_string (e : Encoder.t) (bloom0 : Z)
    (value : string) (w : Encoder.World) (l : Encoder.Locals)
    (w1 : Encoder.World) :
  Encoder.randomize e bloom0 value w = Ok (l, w1) ->
  0 <= Encoder.num_bytes_ e ->
  (Z.to_nat (Encoder.num_bytes_ e) <= List.length (Encoder.output w))%nat ->
  Encoder.output w <> [] ->
  exists out',
    Encoder.Encode e bloom0 value w =
    Ok (l, {| Encoder.det_rand_ := Encoder.det_rand_ w1;
              Encoder.rand_ := Encoder.rand_ w1;
              Encoder.output := out' |}) /\
    List.length out' = List.length (Encoder.output w) /\
    forall k d,
      nth k out' d =
      if Nat.ltb k (Z.to_nat (Encoder.num_bytes_ e))
      then irr_byte (Encoder.irr l) k
      else nth k (Encoder.output w) d.
Proof.
  intros Hrun Hn Hlen Hout.
  pose proof (randomize_inv _ _ _ _ _ _ Hrun) as (_ & _ & _ & _ & _ & _ & _ & _ & Ho).
  unfold Encoder.Encode. rewrite Hrun. simpl. rewrite Ho.
  unfold reserve.
  destruct (Encoder.output w) as [|s rest] eqn:Eo; [contradiction|].
  destruct (Z.ltb_spec (Encoder.num_bytes_ e) 0); [lia|]. simpl bind.
  destruct (copy_irr_nth (Z.to_nat (Encoder.num_bytes_ e)) 0
              (Encoder.irr l) (s :: rest) Hlen) as (out' & Hc & Hl & Hnth).
  rewrite Hc. simpl bind. exists out'. split; [reflexivity|].
  split; [exact Hl|]. intros k d. rewrite Hnth. simpl.
  rewrite Nat.sub_0_r. reflexivity.
Qed.

End EncodeSerialization.

(** ** Variant B *)

Lemma HashPartWidth_supported (bloom_width : Z) :
  HashPartWidth bloom_width <> -1 ->
  Z.rem bloom_width 8 = 0 /\
  2 ^ HashPartWidth bloom_width = bloom_width /\
  3 <= HashPartWidth bloom_width <= 7.
Proof.
  intros H. unfold HashPartWidth in *.
  destruct bloom_width as [|p|p]; try (exfalso; apply H; reflexivity).
  repeat (destruct p as [p|p|];
          try (exfalso; apply H; reflexivity);
          try (split; [reflexivity|split; [reflexivity|lia]])).
Qed.

(** A width the lookup accepts is a whole number of bytes and the power of
    two of the slice width returned, which lies between 3 and 7. *)
Theorem HashPartWidth_validates_width (bloom_width : Z) :
  HashPartWidth bloom_width <> -1 ->
  Z.rem bloom_width 8 = 0 /\
  2 ^ HashPartWidth bloom_width = bloom_width /\
  3 <= HashPartWidth bloom_width <= 7.
Proof. exact (HashPartWidth_supported bloom_width). Qed.

(** A variant-B encoder built for a width the lookup accepts is valid,
    holds 1 to 16 bytes, an eighth of the width, and a slice width whose
    power of two is the width. *)
Theorem Encoder2_supported_width_is_valid (metric_name : string) (cohort : Z)
    (params : Params) (md5_func : string -> Md5Digest) :
  HashPartWidth (num_bits params) <> -1 ->
  let e := Encoder2.Encoder2 metric_name cohort params md5_func in
  Encoder2.IsValid e = true /\
  8 * Encoder2.num_bytes_ e = num_bits params /\
  1 <= Encoder2.num_bytes_ e <= 16 /\
  2 ^ Encoder2.hash_part_width_ e = num_bits params.
Proof.
  intros H. apply HashPartWidth_supported in H as (Hrem & Hpow & Hlo & Hhi).
  unfold Encoder2.IsValid, Encoder2.Encoder2.
  rewrite Hrem.
  cbn [Z.eqb Encoder2.is_valid_ Encoder2.num_bytes_ Encoder2.hash_part_width_].
  pose proof (Z.quot_rem' (num_bits params) 8) as Hq. rewrite Hrem in Hq.
  assert (2 ^ 3 <= 2 ^ HashPartWidth (num_bits params) <= 2 ^ 7) as Hb.
  { split; apply Z.pow_le_mono_r; lia. }
  rewrite Hpow in Hb. change (2 ^ 3) with 8 in Hb.
  change (2 ^ 7) with 128 in Hb.
  repeat split; try lia; exact Hpow.
Qed.

Lemma digest_hash_value (md5 : Md5Digest) :
  Encoder2.digest_hash md5 = digest_byte md5 0 + 256 * digest_byte md5 1 /\
  0 <= Encoder2.digest_hash md5 < 65536.
Proof.
  unfold Encoder2.digest_hash.
  pose proof (Z.mod_pos_bound (nth 0 md5 0) 256 ltac:(lia)) as H0.
  pose proof (Z.mod_pos_bound (nth 1 md5 0) 256 ltac:(lia)) as H1.
  fold (digest_byte md5 0) in H0. fold (digest_byte md5 1) in H1.
  set (a := digest_byte md5 0) in *. set (b := digest_byte md5 1) in *.
  assert (Z.land a (Z.shiftl b 8) = 0) as Hdisj.
  { apply Z.bits_inj'. intros i Hi.
    rewrite Z.land_spec, Z.bits_0.
    destruct (Z.lt_ge_cases i 8).
    - rewrite (Z.shiftl_spec_low b 8 i) by lia. apply andb_false_r.
    - rewrite <- (Z.mod_small a (2 ^ 8)) by lia.
      rewrite Z.mod_pow2_bits_high by lia. reflexivity. }
  rewrite <- Z.lxor_lor, <- Z.add_nocarry_lxor by exact Hdisj.
  rewrite Z.shiftl_mul_pow2 by lia. change (2 ^ 8) with 256.
  rewrite to_u64_small by lia. lia.
Qed.

(** The hash is the first two bytes of the digest, low byte first. *)
Theorem digest_hash_is_two_bytes (md5 : Md5Digest) :
  Encoder2.digest_hash md5 = digest_byte md5 0 + 256 * digest_byte md5 1 /\
  0 <= Encoder2.digest_hash md5 < 65536.
Proof. exact (digest_hash_value md5). Qed.

(** The loop reads the encoder's parameters and slice width only. *)
Lemma Encoder2_hash_loop_reads (e1 e2 : Encoder2.t) (n : nat) :
  Encoder2.params_ e1 = Encoder2.params_ e2 ->
  Encoder2.hash_part_width_ e1 = Encoder2.hash_part_width_ e2 ->
  forall i st, Encoder2.hash_loop e1 n i st = Encoder2.hash_loop e2 n i st.
Proof.
  intros Hp Hw. induction n as [|n IH]; intros i st; simpl; [reflexivity|].
  unfold Encoder2.set_hash_bit. destruct st as [bloom hash].
  rewrite Hp, Hw.
  destruct (rem_u64 _ _) as [r|]; simpl; [|reflexivity].
  destruct (shl_int 1 (wrap_int r)) as [one|]; simpl; [|reflexivity].
  destruct (shr_u64 _ _) as [x|]; simpl; [|reflexivity].
  apply IH.
Qed.

(** The bitset depends on the digest through its first two bytes only:
    two digest functions that agree on them at a value give the same bitset
    for it, and the same state of the capability and of [output].  (Line
    178 also hands the digest to [PrintMd5], which prints bytes of it;
    what is printed is outside this statement.) *)
Theorem Encoder2_bitset_depends_on_two_digest_bytes (R : Type)
    (metric_name : string) (cohort : Z) (params : Params)
    (md5_a md5_b : string -> Md5Digest) (bloom0 : Z) (value : string)
    (w : @Encoder2.World R) :
  digest_byte (md5_a value) 0 = digest_byte (md5_b value) 0 ->
  digest_byte (md5_a value) 1 = digest_byte (md5_b value) 1 ->
  Encoder2.Encode (Encoder2.Encoder2 metric_name cohort params md5_a)
    bloom0 value w =
  Encoder2.Encode (Encoder2.Encoder2 metric_name cohort params md5_b)
    bloom0 value w.
Proof.
  intros H0 H1. unfold Encoder2.Encode.
  set (ea := Encoder2.Encoder2 metric_name cohort params md5_a).
  set (eb := Encoder2.Encoder2 metric_name cohort params md5_b).
  assert (Encoder2.params_ ea = Encoder2.params_ eb) as Hp.
  { unfold ea, eb, Encoder2.Encoder2.
    destruct (Z.rem (num_bits params) 8 =? 0); reflexivity. }
  assert (Encoder2.hash_part_width_ ea = Encoder2.hash_part_width_ eb) as Hw.
  { unfold ea, eb, Encoder2.Encoder2.
    destruct (Z.rem (num_bits params) 8 =? 0); reflexivity. }
  assert (Encoder2.md5_func_ ea = md5_a /\ Encoder2.md5_func_ eb = md5_b)
    as [Ha Hb].
  { unfold ea, eb, Encoder2.Encoder2.
    destruct (Z.rem (num_bits params) 8 =? 0); split; reflexivity. }
  rewrite Ha, Hb, Hp.
  rewrite (Encoder2_hash_loop_reads ea eb _ Hp Hw).
  unfold Encoder2.digest_hash. rewrite H0, H1. reflexivity.
Qed.

(** One index where everything is defined. *)
Lemma Encoder2_set_hash_bit_defined (e : Encoder2.t) (i bloom hash : Z) :
  0 < num_bits (Encoder2.params_ e) <= 32 ->
  0 <= Encoder2.hash_part_width_ e < 64 ->
  0 <= hash ->
  Encoder2.set_hash_bit e i (bloom, hash) =
  Ok (Z.lor bloom (to_u64 (wrap_int (2 ^ (hash mod num_bits (Encoder2.params_ e))))),
      hash).
Proof.
  intros Hnb Hw Hh. unfold Encoder2.set_hash_bit.
  set (nb := num_bits (Encoder2.params_ e)) in *.
  rewrite (to_u64_small nb) by lia.
  unfold rem_u64. destruct (Z.eqb_spec nb 0); [lia|]. simpl.
  pose proof (Z.mod_pos_bound hash nb ltac:(lia)) as Hpos.
  rewrite wrap_int_small by lia.
  unfold shl_int.
  destruct (Z.leb_spec 0 (hash mod nb)); [|lia].
  destruct (Z.ltb_spec (hash mod nb) 32); [|lia]. simpl.
  unfold shr_u64.
  destruct (Z.leb_spec 0 (Encoder2.hash_part_width_ e)); [|lia].
  destruct (Z.ltb_spec (Encoder2.hash_part_width_ e) 64); [|lia]. simpl.
  rewrite Z.shiftl_1_l. reflexivity.
Qed.

Section Encoder2Properties.

Context {R : Type}.

(** For a width up to 32 and a slice width that is a shift count, one hash
    or many give the same bitset: the initial one with the bit at position
    [hash mod num_bits] added, [hash] being the first two bytes of the
    digest.  The capability and the strings at [output] are as before. *)
Theorem Encoder2_Encode_sets_one_bit (e : Encoder2.t) (bloom0 : Z)
    (value : string) (w : @Encoder2.World R) :
  0 < num_bits (Encoder2.params_ e) <= 32 ->
  0 <= Encoder2.hash_part_width_ e < 64 ->
  0 < num_hashes (Encoder2.params_ e) ->
  let pos := Encoder2.digest_hash (Encoder2.md5_func_ e value)
             mod num_bits (Encoder2.params_ e) in
  Encoder2.Encode e bloom0 value w =
    Ok (Z.lor (to_u64 bloom0) (to_u64 (wrap_int (2 ^ pos))), w) /\
  0 <= pos < num_bits (Encoder2.params_ e) /\
  Z.testbit (Z.lor (to_u64 bloom0) (to_u64 (wrap_int (2 ^ pos)))) pos = true /\
  (pos < 31 -> to_u64 (wrap_int (2 ^ pos)) = 2 ^ pos).
Proof.
  intros Hnb Hw Hn pos.
  pose proof (digest_hash_value (Encoder2.md5_func_ e value))
    as [_ Hh].
  set (hash := Encoder2.digest_hash (Encoder2.md5_func_ e value)) in *.
  pose proof (Z.mod_pos_bound hash (num_bits (Encoder2.params_ e))
                ltac:(lia)) as Hpos. fold pos in Hpos.
  assert (forall n i bloom,
            Encoder2.hash_loop e n i (bloom, hash) =
            Ok (match n with
                | O => bloom
                | Datatypes.S _ => Z.lor bloom (to_u64 (wrap_int (2 ^ pos)))
                end, hash)) as Hloop.
  { induction n as [|n IH]; intros i bloom; [reflexivity|].
    cbn [Encoder2.hash_loop].
    rewrite Encoder2_set_hash_bit_defined by (assumption || lia).
    cbn [bind]. rewrite IH. fold pos. destruct n; [reflexivity|].
    rewrite <- Z.lor_assoc, Z.lor_diag. reflexivity. }
  split.
  - unfold Encoder2.Encode. fold hash. rewrite Hloop. simpl.
    destruct (Z.to_nat (num_hashes (Encoder2.params_ e))) eqn:E; [lia|].
    reflexivity.
  - split; [exact Hpos|]. split.
    + apply hash_bit_is_set. lia.
    + intros Hlt. apply hash_bit_alone. lia.
Qed.

(** An encoder whose slice width is the error value of the lookup cannot
    complete [Encode] once it has a hash to compute: the first index ends
    at the shift of line 194, if not before. *)
Theorem Encoder2_Encode_undefined_for_unsupported_width (e : Encoder2.t)
    (bloom0 : Z) (value : string) (w : @Encoder2.World R) :
  Encoder2.hash_part_width_ e = -1 ->
  0 < num_hashes (Encoder2.params_ e) ->
  exists why, Encoder2.Encode e bloom0 value w = Fault why.
Proof.
  intros Hw Hn. unfold Encoder2.Encode.
  destruct (Z.to_nat (num_hashes (Encoder2.params_ e))) as [|n] eqn:E; [lia|].
  simpl. unfold Encoder2.set_hash_bit.
  destruct (rem_u64 _ _) as [r|why]; simpl; [|eexists; reflexivity].
  destruct (shl_int 1 (wrap_int r)) as [one|why]; simpl;
    [|eexists; reflexivity].
  rewrite Hw. simpl. eexists; reflexivity.
Qed.

End Encoder2Properties.

(** ** [randbits] *)

Lemma shifted_bit_testbit (c : bool) (i j : Z) :
  0 <= i < 64 -> 0 <= j ->
  Z.testbit (to_u64 (Z.shiftl (if c then 1 else 0) i)) j = (j =? i) && c.
Proof.
  intros Hi Hj. rewrite to_u64_testbit, Z.shiftl_spec by lia.
  destruct (Z.eqb_spec j i) as [->|Hne].
  - rewrite Z.sub_diag. destruct (Z.ltb_spec i 64); [|lia].
    destruct c; reflexivity.
  - replace (Z.testbit (if c then 1 else 0) (j - i)) with false;
      [apply andb_false_r|].
    destruct c; [|symmetry; apply Z.testbit_0_l].
    destruct (Z.lt_ge_cases (j - i) 0).
    + symmetry. apply Z.testbit_neg_r. lia.
    + symmetry. change 1 with (2 ^ 0). apply Z.pow2_bits_false. lia.
Qed.

Section RandbitsProperties.

Context {G : Type}.
Context (rand : G -> Z * G).

Lemma rand_draws_length (n : nat) :
  forall g, List.length (fst (rand_draws rand n g)) = n.
Proof.
  induction n as [|n IH]; intros g; simpl; [reflexivity|].
  destruct (rand g) as [x g1]. specialize (IH g1).
  destruct (rand_draws rand n g1) as [rs g2]. simpl in *. lia.
Qed.

(** The loop from bit [i]: it keeps what [res] holds and sets bit [i + k]
    where the [k]-th value drawn is below the threshold. *)
Lemma randbits_loop_bits (threshold : Z) (n : nat) :
  forall (i res : Z) (g : G),
    0 <= i -> i + Z.of_nat n <= 64 ->
    exists r,
      randbits_loop rand threshold n i res g =
        Ok (r, snd (rand_draws rand n g)) /\
      forall j, 0 <= j ->
        Z.testbit r j =
        Z.testbit res j ||
        ((i <=? j) && (j <? i + Z.of_nat n) &&
         (nth (Z.to_nat (j - i)) (fst (rand_draws rand n g)) 0 <? threshold)).
Proof.
  induction n as [|n IH]; intros i res g Hi Hn.
  - simpl. exists res. split; [reflexivity|]. intros j Hj.
    destruct (Z.leb_spec i j), (Z.ltb_spec j (i + 0)); simpl;
      try (rewrite orb_false_r; reflexivity); lia.
  - cbn [randbits_loop rand_draws].
    destruct (rand g) as [x g1].
    unfold shl_u64.
    destruct (Z.leb_spec 0 i); [|lia]. destruct (Z.ltb_spec i 64); [|lia].
    cbn [andb bind].
    destruct (IH (i + 1)
                (Z.lor res (to_u64 (Z.shiftl (if x <? threshold then 1 else 0) i)))
                g1 ltac:(lia) ltac:(lia)) as (r & Hrun & Hbits).
    destruct (rand_draws rand n g1) as [rs g2] eqn:Ed.
    cbn [fst snd] in *.
    exists r. split; [exact Hrun|]. intros j Hj.
    rewrite (Hbits j Hj), Z.lor_spec, shifted_bit_testbit by lia.
    destruct (Z.eqb_spec j i) as [->|Hne].
    + rewrite Z.sub_diag. cbn [Z.to_nat nth].
      destruct (Z.leb_spec (i + 1) i); [lia|].
      destruct (Z.leb_spec i i); [|lia].
      destruct (Z.ltb_spec i (i + Z.of_nat (Datatypes.S n))); [|lia].
      cbn [andb]. rewrite orb_false_r. reflexivity.
    + cbn [andb]. rewrite orb_false_r.
      destruct (Z.leb_spec (i + 1) j), (Z.leb_spec i j); try lia;
        cbn [andb]; [|reflexivity].
      replace (Z.to_nat (j - i)) with (Datatypes.S (Z.to_nat (j - (i + 1))))
        by lia.
      cbn [nth].
      destruct (Z.ltb_spec j (i + 1 + Z.of_nat n)),
        (Z.ltb_spec j (i + Z.of_nat (Datatypes.S n))); try lia; reflexivity.
Qed.

Lemma randbits_bits (threshold num_bits : Z) (g : G) :
  0 <= num_bits <= 64 ->
  exists r,
    randbits rand threshold num_bits g =
      Ok (r, snd (rand_draws rand (Z.to_nat num_bits) g)) /\
    0 <= r < 2 ^ num_bits /\
    forall j, 0 <= j ->
      Z.testbit r j =
      (j <? num_bits) &&
      (nth (Z.to_nat j) (fst (rand_draws rand (Z.to_nat num_bits) g)) 0
       <? threshold).
Proof.
  intros Hn. unfold randbits.
  destruct (randbits_loop_bits threshold (Z.to_nat num_bits) 0 0 g
              ltac:(lia) ltac:(lia)) as (r & Hrun & Hbits).
  exists r. split; [exact Hrun|].
  assert (forall j, 0 <= j ->
            Z.testbit r j =
            (j <? num_bits) &&
            (nth (Z.to_nat j) (fst (rand_draws rand (Z.to_nat num_bits) g)) 0
             <? threshold)) as Hb.
  { intros j Hj. rewrite (Hbits j Hj), Z.testbit_0_l, Z.sub_0_r.
    rewrite Z2Nat.id by lia. cbn [orb Z.add].
    destruct (Z.leb_spec 0 j); [reflexivity | lia]. }
  split; [|exact Hb].
  assert (r = r mod 2 ^ num_bits) as ->.
  { apply Z.bits_inj'. intros j Hj.
    rewrite Z.testbit_mod_pow2 by lia. rewrite (Hb j Hj).
    destruct (j <? num_bits); reflexivity. }
  apply Z.mod_pos_bound. apply Z.pow_pos_nonneg; lia.
Qed.

(** For a width of 0 to 64 bits [randbits] calls [rand()] once per bit and
    returns a value below [2^num_bits] whose bit [j] is 1 exactly where the
    [j]-th value drawn is below the threshold. *)
Theorem randbits_bit_per_draw (threshold num_bits : Z) (g : G) :
  0 <= num_bits <= 64 ->
  exists r,
    randbits rand threshold num_bits g =
      Ok (r, snd (rand_draws rand (Z.to_nat num_bits) g)) /\
    0 <= r < 2 ^ num_bits /\
    forall j, 0 <= j ->
      Z.testbit r j =
      (j <? num_bits) &&
      (nth (Z.to_nat j) (fst (rand_draws rand (Z.to_nat num_bits) g)) 0
       <? threshold).
Proof. exact (randbits_bits threshold num_bits g). Qed.

(** The two ends: draws that all reach the threshold (a threshold of 0, as
    [rand()] is never negative) give 0, and draws all below it give
    [num_bits] ones. *)
Theorem randbits_all_or_nothing (threshold num_bits : Z) (g : G) :
  0 <= num_bits <= 64 ->
  (Forall (fun x => threshold <= x)
     (fst (rand_draws rand (Z.to_nat num_bits) g)) ->
   randbits rand threshold num_bits g =
     Ok (0, snd (rand_draws rand (Z.to_nat num_bits) g))) /\
  (Forall (fun x => x < threshold)
     (fst (rand_draws rand (Z.to_nat num_bits) g)) ->
   randbits rand threshold num_bits g =
     Ok (Z.ones num_bits, snd (rand_draws rand (Z.to_nat num_bits) g))).
Proof.
  intros Hn.
  destruct (randbits_bits threshold num_bits g Hn)
    as (r & Hrun & _ & Hbits).
  pose proof (rand_draws_length (Z.to_nat num_bits) g) as Hlen.
  split; intros Hall; rewrite Hrun; do 2 f_equal;
    apply Z.bits_inj'; intros j Hj; rewrite (Hbits j Hj).
  - rewrite Z.bits_0. destruct (Z.ltb_spec j num_bits); [|reflexivity].
    cbn [andb]. apply Z.ltb_ge.
    apply (proj1 (Forall_nth _ _) Hall). lia.
  - rewrite Z.testbit_ones by lia.
    destruct (Z.leb_spec 0 j); [|lia].
    destruct (Z.ltb_spec j num_bits); [|reflexivity].
    cbn [andb]. apply Z.ltb_lt.
    apply (proj1 (Forall_nth _ _) Hall). lia.
Qed.

(** Past 64 bits the shift of line 29 has a count its [uint64_t] operand
    does not admit: [randbits] has no result for a wider request. *)
Theorem randbits_undefined_past_64_bits (threshold num_bits : Z) (g : G) :
  64 < num_bits ->
  randbits rand threshold num_bits g = Fault ShiftCountTooLarge.
Proof.
  intros Hn. unfold randbits.
  assert (forall n i res g0,
            n <> O -> 64 < i + Z.of_nat n ->
            randbits_loop rand threshold n i res g0 =
            Fault ShiftCountTooLarge) as H.
  { induction n as [|n IH]; intros i res g0 Hn0 Hi; [contradiction|].
    cbn [randbits_loop]. destruct (rand g0) as [x g1]. unfold shl_u64.
    destruct ((0 <=? i) && (i <? 64)) eqn:Hc; cbn [bind]; [|reflexivity].
    apply andb_true_iff in Hc as [_ Hc]. apply Z.ltb_lt in Hc.
    apply IH; lia. }
  apply H; lia.
Qed.

End RandbitsProperties.

(** ** The further properties on examples *)

Section FurtherExamples.

Local Open Scope string_scope.

(** ["a"] at 8 bits sets bit 6; the hash of ["chrome"] wraps to
    -160949949, whose remainder by 8 is -5, no shift count. *)
Lemma hash_stage_closed_form_witness :
  0 < num_hashes (Encoder.params_ Examples.enc8) /\
  Encoder.hash_stage Examples.enc8 0 "a" = Ok 64 /\
  Encoder.hash_value "chrome" = -160949949 /\
  Encoder.hash_stage Examples.enc8 0 "chrome" = Fault ShiftCountTooLarge.
Proof.
  assert (0 < num_hashes (Encoder.params_ Examples.enc8)) as Hn
    by (simpl; lia).
  split; [exact Hn|]. split; [|split; [reflexivity|]].
  - rewrite (hash_stage_closed_form Examples.enc8 0 "a" Hn). reflexivity.
  - rewrite (hash_stage_closed_form Examples.enc8 0 "chrome" Hn). reflexivity.
Defined.

(** One hash or five at 8 bits: the same bitset for ["a"]. *)
Lemma hash_stage_ignores_num_hashes_witness :
  Encoder.hash_stage
    (Encoder.Encoder "metric" 0 {| num_bits := 8; num_hashes := 5 |}) 0 "a"
  = Encoder.hash_stage Examples.enc8 0 "a".
Proof.
  apply hash_stage_ignores_num_hashes; [reflexivity | simpl; lia | simpl; lia].
Defined.

(** Over an initial bitset of 5, ["a"] gives 69: bits 0 and 2 stay. *)
Lemma hash_stage_keeps_bits_witness :
  Encoder.hash_stage Examples.enc8 5 "a" = Ok 69 /\
  0 <= 69 < 2 ^ 64 /\
  (Z.testbit (to_u64 5) 2 = true -> Z.testbit 69 2 = true).
Proof.
  split; [reflexivity|].
  destruct (hash_stage_keeps_bits Examples.enc8 5 "a" 69 eq_refl) as [Hr Hb].
  split; [exact Hr | exact (Hb 2)].
Defined.

(** The same value encoded from a fresh capability and from one seeded
    with ["b"] and drawn from three times: the same PRR. *)
Lemma prr_is_memoized_witness :
  exists l l' w1 w1',
    @Encoder.randomize _ _ (Fixed.det_rand 255 15) (Fixed.rand 0 0)
      Examples.enc8 0 "a" Examples.world0 = Ok (l, w1) /\
    @Encoder.randomize _ _ (Fixed.det_rand 255 15) (Fixed.rand 0 0)
      Examples.enc8 0 "a"
      {| Encoder.det_rand_ := ("b", 3%nat); Encoder.rand_ := 7%nat;
         Encoder.output := [EmptyString] |} = Ok (l', w1') /\
    Encoder.prr l = Encoder.prr l' /\ Encoder.prr l = 79.
Proof.
  eexists; eexists; eexists; eexists.
  split; [reflexivity|]. split; [reflexivity|]. split; [|reflexivity].
  refine (proj1 (proj2 (proj2
    (@prr_is_memoized _ _ (Fixed.det_rand 255 15) (Fixed.rand 0 0)
       Examples.enc8 0 "a" Examples.world0
       {| Encoder.det_rand_ := ("b", 3%nat); Encoder.rand_ := 7%nat;
          Encoder.output := [EmptyString] |}
       _ _ _ _ (fun v d d' => eq_refl) eq_refl eq_refl)))).
Defined.

(** Draws of 2^70 + 1 and an initial bitset of -1 still leave 64-bit
    locals. *)
Lemma randomize_locals_are_64_bit_witness :
  exists l w1,
    @Encoder.randomize _ _ (Fixed.det_rand (2 ^ 70 + 1) (2 ^ 70 + 1))
      (Fixed.rand (2 ^ 70 + 1) (2 ^ 70 + 1))
      Examples.enc8 (-1) "a" Examples.world0 = Ok (l, w1) /\
    Encoder.bloom l = all_ones /\
    Forall (fun x => 0 <= x < 2 ^ 64)
      [Encoder.bloom l; Encoder.f_bits l; Encoder.uniform l; Encoder.prr l;
       Encoder.p_bits l; Encoder.q_bits l; Encoder.irr l].
Proof.
  eexists; eexists. split; [reflexivity|]. split; [reflexivity|].
  eapply (@randomize_locals_are_64_bit _ _
            (Fixed.det_rand (2 ^ 70 + 1) (2 ^ 70 + 1))
            (Fixed.rand (2 ^ 70 + 1) (2 ^ 70 + 1))
            Examples.enc8 (-1) "a" Examples.world0).
  reflexivity.
Defined.

(** PRR 0x4F, [p_bits] 0x0F, [q_bits] 0xF0: bit 6 of the IRR is bit 6 of
    [q_bits], bit 4 that of [p_bits]. *)
Lemma irr_selects_q_or_p_witness :
  exists l w1,
    @Encoder.randomize _ _ (Fixed.det_rand 255 15) (Fixed.rand 15 240)
      Examples.enc8 0 "a" Examples.world0 = Ok (l, w1) /\
    Encoder.prr l = 79 /\
    Z.testbit (Encoder.irr l) 6 =
      (if Z.testbit (Encoder.prr l) 6
       then Z.testbit (Encoder.q_bits l) 6
       else Z.testbit (Encoder.p_bits l) 6) /\
    Z.testbit (Encoder.irr l) 6 = true.
Proof.
  eexists; eexists. split; [reflexivity|]. split; [reflexivity|].
  split; [|reflexivity].
  apply (@irr_selects_q_or_p _ _ (Fixed.det_rand 255 15) (Fixed.rand 15 240)
           Examples.enc8 0 "a" Examples.world0 _ _ 6 eq_refl).
  lia.
Defined.

(** ["a"] at 8 bits without noise: PRR and IRR are the bitset 0x40. *)
Lemma no_noise_reports_the_bitset_witness :
  exists l w1,
    @Encoder.randomize _ _ (Fixed.det_rand 255 0) (Fixed.rand 0 all_ones)
      Examples.enc8 0 "a" Examples.world0 = Ok (l, w1) /\
    Encoder.uniform l = 0 /\
    Encoder.bloom l = 64 /\
    Encoder.prr l = Encoder.bloom l /\
    Encoder.irr l = Encoder.bloom l.
Proof.
  eexists; eexists. split; [reflexivity|]. split; [reflexivity|].
  split; [reflexivity|].
  destruct (@no_noise_reports_the_bitset _ _ (Fixed.det_rand 255 0)
              (Fixed.rand 0 all_ones) Examples.enc8 0 "a" Examples.world0
              _ _ eq_refl eq_refl) as [Hprr Hirr].
  split; [exact Hprr|]. apply Hirr; reflexivity.
Defined.

(** With [uniform] all ones the PRR for ["a"] is [f_bits], 0x0F. *)
Lemma full_noise_hides_the_bitset_witness :
  exists l w1,
    @Encoder.randomize _ _ (Fixed.det_rand 15 all_ones) (Fixed.rand 0 0)
      Examples.enc8 0 "a" Examples.world0 = Ok (l, w1) /\
    Encoder.uniform l = all_ones /\
    Encoder.bloom l = 64 /\
    Encoder.prr l = Encoder.f_bits l /\
    Encoder.prr l = 15.
Proof.
  eexists; eexists. split; [reflexivity|]. split; [reflexivity|].
  split; [reflexivity|]. split; [|reflexivity].
  apply (@full_noise_hides_the_bitset _ _ (Fixed.det_rand 15 all_ones)
           (Fixed.rand 0 0) Examples.enc8 0 "a" Examples.world0 _ _ eq_refl).
  reflexivity.
Defined.

(** 16 bits, ["c"], two strings at [output]: the IRR 0x0100 becomes the
    strings of the bytes 0x00 and 0x01. *)
Lemma Encode_stores_one_byte_per_string_witness :
  exists l w1 out',
    @Encoder.randomize _ _ (Fixed.det_rand 0 0) (Fixed.rand 0 all_ones)
      Examples.enc16 0 "c" Examples.world2 = Ok (l, w1) /\
    Encoder.irr l = 256 /\
    @Encoder.Encode _ _ (Fixed.det_rand 0 0) (Fixed.rand 0 all_ones)
      Examples.enc16 0 "c" Examples.world2 =
    Ok (l, {| Encoder.det_rand_ := Encoder.det_rand_ w1;
              Encoder.rand_ := Encoder.rand_ w1;
              Encoder.output := out' |}) /\
    nth 0 out' EmptyString = irr_byte 256 0 /\
    nth 1 out' EmptyString = irr_byte 256 1.
Proof.
  assert (Encoder.output Examples.world2 <> []) as Hout
    by (simpl; discriminate).
  assert (0 <= Encoder.num_bytes_ Examples.enc16) as Hn
    by (vm_compute; discriminate).
  assert (Z.to_nat (Encoder.num_bytes_ Examples.enc16)
          <= List.length (Encoder.output Examples.world2))%nat as Hlen
    by (vm_compute; apply le_n).
  destruct (@Encode_stores_one_byte_per_string _ _ (Fixed.det_rand 0 0)
              (Fixed.rand 0 all_ones) Examples.enc16 0 "c" Examples.world2
              _ _ eq_refl Hn Hlen Hout)
    as (out' & Hrun & _ & Hnth).
  eexists; eexists; exists out'.
  split; [reflexivity|]. split; [reflexivity|]. split; [exact Hrun|].
  split; [exact (Hnth 0%nat EmptyString) | exact (Hnth 1%nat EmptyString)].
Defined.

(** 16 bits and a single string at [output]: no completed run. *)
Lemma Encode_one_string_two_bytes_witness :
  2 <= Encoder.num_bytes_ Examples.enc16 /\
  Encoder.output Examples.world0 = [EmptyString] /\
  forall l w',
    @Encoder.Encode _ _ (Fixed.det_rand 0 0) (Fixed.rand 0 all_ones)
      Examples.enc16 0 "c" Examples.world0 <> Ok (l, w').
Proof.
  assert (2 <= Encoder.num_bytes_ Examples.enc16) as Hn
    by (vm_compute; discriminate).
  split; [exact Hn|]. split; [reflexivity|].
  apply (@Encode_one_string_two_bytes _ _ (Fixed.det_rand 0 0)
           (Fixed.rand 0 all_ones) Examples.enc16 0 "c" Examples.world0
           EmptyString Hn eq_refl).
Defined.

(** The lookup at 32. *)
Lemma HashPartWidth_validates_width_witness :
  HashPartWidth 32 <> -1 /\
  Z.rem 32 8 = 0 /\ 2 ^ HashPartWidth 32 = 32 /\ 3 <= HashPartWidth 32 <= 7.
Proof.
  assert (HashPartWidth 32 <> -1) as H by (simpl; discriminate).
  split; [exact H | exact (HashPartWidth_validates_width 32 H)].
Defined.

(** A variant-B encoder for 32 bits: 4 bytes, slice width 5. *)
Lemma Encoder2_supported_width_is_valid_witness :
  HashPartWidth 32 <> -1 /\
  Encoder2.IsValid
    (Encoder2.Encoder2 "metric" 0 {| num_bits := 32; num_hashes := 2 |}
       Examples.md5_08) = true /\
  Encoder2.num_bytes_
    (Encoder2.Encoder2 "metric" 0 {| num_bits := 32; num_hashes := 2 |}
       Examples.md5_08) = 4.
Proof.
  assert (HashPartWidth (num_bits {| num_bits := 32; num_hashes := 2 |})
          <> -1) as H by (simpl; discriminate).
  split; [exact H|].
  destruct (Encoder2_supported_width_is_valid "metric" 0
              {| num_bits := 32; num_hashes := 2 |} Examples.md5_08 H)
    as (Hv & _ & _ & _).
  split; [exact Hv | reflexivity].
Defined.

(** Two digests that differ from the third byte on. *)
Lemma Encoder2_bitset_depends_on_two_digest_bytes_witness :
  Encoder2.Encode
    (Encoder2.Encoder2 "metric" 0 {| num_bits := 8; num_hashes := 2 |}
       (fun _ => [8; 0; 1; 2; 3; 4; 5; 6; 7; 8; 9; 10; 11; 12; 13; 14]))
    0 "x" Examples.world2_0 =
  Encoder2.Encode
    (Encoder2.Encoder2 "metric" 0 {| num_bits := 8; num_hashes := 2 |}
       Examples.md5_08)
    0 "x" Examples.world2_0.
Proof.
  apply (Encoder2_bitset_depends_on_two_digest_bytes nat "metric" 0
           {| num_bits := 8; num_hashes := 2 |}
           (fun _ => [8; 0; 1; 2; 3; 4; 5; 6; 7; 8; 9; 10; 11; 12; 13; 14])
           Examples.md5_08 0 "x" Examples.world2_0);
    reflexivity.
Defined.

(** 8 bits, two hashes, digest 0x08 0x00: position 0, bitset 1. *)
Lemma Encoder2_Encode_sets_one_bit_witness :
  0 < num_bits (Encoder2.params_ Examples.enc2_8) <= 32 /\
  0 <= Encoder2.hash_part_width_ Examples.enc2_8 < 64 /\
  0 < num_hashes (Encoder2.params_ Examples.enc2_8) /\
  Encoder2.Encode Examples.enc2_8 0 "x" Examples.world2_0 =
    Ok (1, Examples.world2_0).
Proof.
  assert (0 < num_bits (Encoder2.params_ Examples.enc2_8) <= 32) as Hnb
    by (simpl; lia).
  assert (0 <= Encoder2.hash_part_width_ Examples.enc2_8 < 64) as Hw
    by (simpl; lia).
  assert (0 < num_hashes (Encoder2.params_ Examples.enc2_8)) as Hn
    by (simpl; lia).
  split; [exact Hnb|]. split; [exact Hw|]. split; [exact Hn|].
  destruct (Encoder2_Encode_sets_one_bit Examples.enc2_8 0 "x"
              Examples.world2_0 Hnb Hw Hn) as [Hrun _].
  rewrite Hrun. reflexivity.
Defined.

(** The encoder for 24 bits: valid, and without a completed [Encode]. *)
Lemma Encoder2_Encode_undefined_for_unsupported_width_witness :
  Encoder2.IsValid Examples.enc2_24 = true /\
  Encoder2.hash_part_width_ Examples.enc2_24 = -1 /\
  0 < num_hashes (Encoder2.params_ Examples.enc2_24) /\
  exists why,
    Encoder2.Encode Examples.enc2_24 0 "x" Examples.world2_0 = Fault why.
Proof.
  assert (0 < num_hashes (Encoder2.params_ Examples.enc2_24)) as Hn
    by (simpl; lia).
  split; [reflexivity|]. split; [reflexivity|]. split; [exact Hn|].
  exact (Encoder2_Encode_undefined_for_unsupported_width Examples.enc2_24
           0 "x" Examples.world2_0 eq_refl Hn).
Defined.

(** Eight bits from the generator started at 1 with a threshold of 2^30:
    the draws 1, 2, 5 and 7 are below it, the result is 166. *)
Lemma randbits_bit_per_draw_witness :
  0 <= 8 <= 64 /\
  randbits Lcg.rand (2 ^ 30) 8 1 = Ok (166, 486256185) /\
  exists r,
    randbits Lcg.rand (2 ^ 30) 8 1 =
      Ok (r, snd (rand_draws Lcg.rand (Z.to_nat 8) 1)) /\
    0 <= r < 2 ^ 8 /\
    Z.testbit r 5 = true.
Proof.
  assert (0 <= 8 <= 64) as Hn by lia.
  split; [exact Hn|]. split; [reflexivity|].
  destruct (randbits_bit_per_draw Lcg.rand (2 ^ 30) 8 1 Hn)
    as (r & Hrun & Hr & Hbits).
  exists r. split; [exact Hrun|]. split; [exact Hr|].
  rewrite (Hbits 5 ltac:(lia)). reflexivity.
Defined.

(** The generator started at 1: a threshold of 0 gives no bit, a
    threshold of 2^31, above every draw, gives eight. *)
Lemma randbits_all_or_nothing_witness :
  0 <= 8 <= 64 /\
  randbits Lcg.rand 0 8 1 = Ok (0, 486256185) /\
  randbits Lcg.rand (2 ^ 31) 8 1 = Ok (255, 486256185).
Proof.
  assert (0 <= 8 <= 64) as Hn by lia.
  assert (fst (rand_draws Lcg.rand (Z.to_nat 8) 1) =
          [1103527590; 377401575; 662824084; 1147902781; 2035015474;
           368800899; 1508029952; 486256185]) as Hd by reflexivity.
  split; [exact Hn|]. split.
  - apply (proj1 (randbits_all_or_nothing Lcg.rand 0 8 1 Hn)).
    rewrite Hd. repeat apply Forall_cons; try apply Forall_nil; discriminate.
  - apply (proj2 (randbits_all_or_nothing Lcg.rand (2 ^ 31) 8 1 Hn)).
    rewrite Hd. repeat apply Forall_cons; try apply Forall_nil; reflexivity.
Defined.

(** A request for 65 bits. *)
Lemma randbits_undefined_past_64_bits_witness :
  64 < 65 /\ randbits Lcg.rand (2 ^ 30) 65 1 = Fault ShiftCountTooLarge.
Proof.
  assert (64 < 65) as H by lia.
  split; [exact H | exact (randbits_undefined_past_64_bits Lcg.rand _ 65 1 H)].
Defined.

End FurtherExamples.
